(** * Verification of [fix_price_function.py]

    The script reads [unified_bot.js] as UTF-8 text, replaces the first
    region matching a regular expression by a fixed JavaScript function,
    writes the text back and prints a message.  This development embeds

    - the text layer of the file objects the script opens (UTF-8 strict
      decoding and encoding, universal newlines on reading, translation
      of line feeds to the platform line separator on writing);
    - the regular expression as a syntax tree, run by a backtracking
      matcher with the priorities of Python's [re] (greedy repetition,
      first successful path wins), with [re.search] and
      [re.sub(..., count=1)] on top of it;
    - the script itself, as a program in a state-and-exception monad over
      the file system, the standard output and the variable [content];

    and then states and proves the properties of the script. *)

From Stdlib Require Import List NArith ZArith Lia Bool String Ascii.
From Stdlib Require Import Strings.Byte.
From stdpp Require Import base option list gmap strings.
Import ListNotations.

(** ** Text: Python [str] values *)

(** A Python [str] is a sequence of Unicode code points. *)
Definition codepoint := N.
Definition str := list codepoint.

Definition LF : codepoint := 10%N.
Definition CR : codepoint := 13%N.

(** The code point of an ASCII character, to write patterns readably. *)
Definition chr (a : ascii) : codepoint := N_of_ascii a.

(** ** The UTF-8 codec ([encoding='utf-8'], error handler [strict]) *)

Definition is_continuation (c : N) : bool := ((0x80 <=? c) && (c <=? 0xBF))%N.

(** [bytes.decode('utf-8')]: [None] stands for [UnicodeDecodeError].
    Overlong forms, surrogates (U+D800..U+DFFF) and values above U+10FFFF
    are rejected, as are truncated sequences. *)
Fixpoint utf8_decode (bs : list byte) : option str :=
  match bs with
  | [] => Some []
  | b0 :: r0 =>
    let c0 := Byte.to_N b0 in
    if (c0 <? 0x80)%N then option_map (cons c0) (utf8_decode r0)
    else if (c0 <? 0xC2)%N then None
    else if (c0 <? 0xE0)%N then
      match r0 with
      | b1 :: r1 =>
        let c1 := Byte.to_N b1 in
        if is_continuation c1
        then option_map (cons ((c0 - 0xC0) * 64 + (c1 - 0x80))%N) (utf8_decode r1)
        else None
      | _ => None
      end
    else if (c0 <? 0xF0)%N then
      match r0 with
      | b1 :: b2 :: r2 =>
        let c1 := Byte.to_N b1 in
        let c2 := Byte.to_N b2 in
        if is_continuation c1 && is_continuation c2
           && negb ((c0 =? 0xE0)%N && (c1 <? 0xA0)%N)
           && negb ((c0 =? 0xED)%N && (0xA0 <=? c1)%N)
        then option_map
               (cons ((c0 - 0xE0) * 4096 + (c1 - 0x80) * 64 + (c2 - 0x80))%N)
               (utf8_decode r2)
        else None
      | _ => None
      end
    else if (c0 <? 0xF5)%N then
      match r0 with
      | b1 :: b2 :: b3 :: r3 =>
        let c1 := Byte.to_N b1 in
        let c2 := Byte.to_N b2 in
        let c3 := Byte.to_N b3 in
        if is_continuation c1 && is_continuation c2 && is_continuation c3
           && negb ((c0 =? 0xF0)%N && (c1 <? 0x90)%N)
           && negb ((c0 =? 0xF4)%N && (0x90 <=? c1)%N)
        then option_map
               (cons ((c0 - 0xF0) * 262144 + (c1 - 0x80) * 4096
                      + (c2 - 0x80) * 64 + (c3 - 0x80))%N)
               (utf8_decode r3)
        else None
      | _ => None
      end
    else None
  end.

Definition byte_of_N (n : N) : byte :=
  match Byte.of_N n with Some b => b | None => x00 end.

(** One code point to bytes; [None] stands for [UnicodeEncodeError]
    (a surrogate cannot be encoded). *)
Definition utf8_encode_char (c : codepoint) : option (list byte) :=
  if (c <? 0x80)%N then Some [byte_of_N c]
  else if (c <? 0x800)%N then
    Some [byte_of_N (0xC0 + c / 64); byte_of_N (0x80 + c mod 64)]%N
  else if (c <? 0x10000)%N then
    if ((0xD800 <=? c) && (c <=? 0xDFFF))%N then None
    else Some [byte_of_N (0xE0 + c / 4096);
               byte_of_N (0x80 + (c / 64) mod 64);
               byte_of_N (0x80 + c mod 64)]%N
  else if (c <? 0x110000)%N then
    Some [byte_of_N (0xF0 + c / 262144);
          byte_of_N (0x80 + (c / 4096) mod 64);
          byte_of_N (0x80 + (c / 64) mod 64);
          byte_of_N (0x80 + c mod 64)]%N
  else None.

(** [str.encode('utf-8')]. *)
Fixpoint utf8_encode (s : str) : option (list byte) :=
  match s with
  | [] => Some []
  | c :: s' =>
    match utf8_encode_char c, utf8_encode s' with
    | Some b, Some bs => Some (b ++ bs)
    | _, _ => None
    end
  end.

(** A string literal of this file, as the bytes of its UTF-8 source text
    and as the [str] Python builds from it. *)
Definition bytes_of (s : string) : list byte := list_byte_of_string s.

Definition text_of (s : string) : str :=
  match utf8_decode (bytes_of s) with Some t => t | None => [] end.

(** ** Newline handling of text-mode files ([newline=None]) *)

(** Reading: universal newlines, the sequences CR LF and CR become LF. *)
Fixpoint universal_newlines (s : str) : str :=
  match s with
  | [] => []
  | c :: s' =>
    if (c =? CR)%N then
      LF :: match s' with
            | d :: s'' =>
              if (d =? LF)%N then universal_newlines s'' else universal_newlines s'
            | [] => []
            end
    else c :: universal_newlines s'
  end.

(** The platform the script runs on fixes [os.linesep]. *)
Inductive platform := Posix | Windows.

Definition linesep (os : platform) : str :=
  match os with Posix => [LF] | Windows => [CR; LF] end.

(** Writing: every LF becomes [os.linesep]. *)
Definition translate_newlines (os : platform) (s : str) : str :=
  flat_map (fun c => if (c =? LF)%N then linesep os else [c]) s.

(** [f.read()] on a file opened with ['r', encoding='utf-8'], and the
    bytes [f.write(s)] stores in a file opened with ['w', encoding='utf-8']. *)
Definition read_text (bs : list byte) : option str :=
  option_map universal_newlines (utf8_decode bs).

Definition write_text (os : platform) (s : str) : option (list byte) :=
  utf8_encode (translate_newlines os s).

(** ** Regular expressions and the backtracking matcher of [re] *)

Module re.

(** The single-character items the pattern uses: a literal, a negated
    one-character set such as [[^)]], and the category [\s]. *)
Inductive charset :=
| Literal (c : codepoint)
| NotLiteral (c : codepoint)
| Whitespace.

(** [\s] on [str] patterns: the characters for which [str.isspace] holds. *)
Definition is_whitespace (c : codepoint) : bool :=
  ((9 <=? c) && (c <=? 13) || (28 <=? c) && (c <=? 32)
   || (c =? 133) || (c =? 160) || (c =? 5760)
   || (8192 <=? c) && (c <=? 8202)
   || (c =? 8232) || (c =? 8233) || (c =? 8239) || (c =? 8287)
   || (c =? 12288))%N.

Definition charset_mem (cs : charset) (c : codepoint) : bool :=
  match cs with
  | Literal d => (c =? d)%N
  | NotLiteral d => negb (c =? d)%N
  | Whitespace => is_whitespace c
  end.

Inductive regex :=
| Empty
| One (cs : charset)
| Seq (r1 r2 : regex)
| Star (r : regex).

Infix "+>" := Seq (at level 60, right associativity).

(** [r+] is one [r] followed by a greedy [r*]. *)
Definition Plus (r : regex) : regex := r +> Star r.

(** A run of literal characters in front of [r]. *)
Fixpoint Lit (s : str) (r : regex) : regex :=
  match s with
  | [] => r
  | c :: s' => One (Literal c) +> Lit s' r
  end.

(** *** Reading a pattern: the part of [re.compile] the script needs *)

Inductive token :=
| TItem (cs : charset)
| TOpen
| TClose
| TStar
| TPlus.

Definition is_alnum (a : ascii) : bool :=
  let n := nat_of_ascii a in
  ((48 <=? n) && (n <=? 57) || (65 <=? n) && (n <=? 90)
   || (97 <=? n) && (n <=? 122))%nat.

(** The characters with a meaning of their own in a pattern. *)
Definition is_special (a : ascii) : bool :=
  existsb (Ascii.eqb a)
          ["."; "^"; "$"; "*"; "+"; "?"; "{"; "}"; "["; "]"; "\"; "|"; "("; ")"]%char.

(** Escapes: [\s] is the whitespace category, an escaped character that is
    neither a letter nor a digit stands for itself.  Sets: only the negated
    one-character set.  Groups: only the non-capturing one.  Anything else
    is refused ([None]). *)
Fixpoint tokenize (p : list ascii) : option (list token) :=
  match p with
  | [] => Some []
  | c :: p1 =>
    if Ascii.eqb c "\" then
      match p1 with
      | d :: p2 =>
        if Ascii.eqb d "s" then option_map (cons (TItem Whitespace)) (tokenize p2)
        else if is_alnum d then None
        else option_map (cons (TItem (Literal (chr d)))) (tokenize p2)
      | [] => None
      end
    else if Ascii.eqb c "[" then
      match p1 with
      | n :: d :: e :: p4 =>
        if Ascii.eqb n "^" && negb (Ascii.eqb d "\") && negb (Ascii.eqb d "]")
           && Ascii.eqb e "]"
        then option_map (cons (TItem (NotLiteral (chr d)))) (tokenize p4)
        else None
      | _ => None
      end
    else if Ascii.eqb c "(" then
      match p1 with
      | q :: n :: p3 =>
        if Ascii.eqb q "?" && Ascii.eqb n ":"
        then option_map (cons TOpen) (tokenize p3)
        else None
      | _ => None
      end
    else if Ascii.eqb c ")" then option_map (cons TClose) (tokenize p1)
    else if Ascii.eqb c "*" then option_map (cons TStar) (tokenize p1)
    else if Ascii.eqb c "+" then option_map (cons TPlus) (tokenize p1)
    else if is_special c then None
    else option_map (cons (TItem (Literal (chr c)))) (tokenize p1)
  end.

(** The items of a sequence, in order. *)
Fixpoint seq_of (items : list regex) : regex :=
  match items with
  | [] => Empty
  | [r] => r
  | r :: rs => r +> seq_of rs
  end.

(** [acc] holds the items of the sequence being read, last first, and
    [stack] those of the sequences around the open groups.  A repetition
    mark binds to the item just before it. *)
Fixpoint parse (ts : list token) (acc : list regex) (stack : list (list regex))
  : option regex :=
  match ts with
  | [] =>
    match stack with
    | [] => Some (seq_of (rev acc))
    | _ => None
    end
  | TItem cs :: TStar :: ts' => parse ts' (Star (One cs) :: acc) stack
  | TItem cs :: TPlus :: ts' => parse ts' (Plus (One cs) :: acc) stack
  | TItem cs :: ts' => parse ts' (One cs :: acc) stack
  | TOpen :: ts' => parse ts' [] (acc :: stack)
  | TClose :: TStar :: ts' =>
    match stack with
    | acc' :: stack' => parse ts' (Star (seq_of (rev acc)) :: acc') stack'
    | [] => None
    end
  | TClose :: TPlus :: ts' =>
    match stack with
    | acc' :: stack' => parse ts' (Plus (seq_of (rev acc)) :: acc') stack'
    | [] => None
    end
  | TClose :: ts' =>
    match stack with
    | acc' :: stack' => parse ts' (seq_of (rev acc) :: acc') stack'
    | [] => None
    end
  | TStar :: _ => None
  | TPlus :: _ => None
  end.

Definition compile (p : string) : option regex :=
  match tokenize (list_ascii_of_string p) with
  | Some ts => parse ts [] []
  | None => None
  end.

(** The matcher works on the remaining input and a continuation for what
    follows in the pattern; the continuation returns the input left after
    the whole match, or [None] to make the matcher backtrack. *)
Definition cont := str -> option str.

(** Greedy repetition: try one more iteration first, and only when every
    way of continuing after it has failed, go on with what follows.  An
    iteration that consumes nothing is cut, so [fuel] = length of the
    input is always enough (lemma [star_loop_fuel]); the repeated
    sub-patterns of [pattern] consume at least one character anyway. *)
Fixpoint star_loop (body : str -> cont -> option str)
         (fuel : nat) (s : str) (k : cont) : option str :=
  match fuel with
  | O => k s
  | S fuel' =>
    match body s (fun s' => if length s' <? length s
                            then star_loop body fuel' s' k else None) with
    | Some r => Some r
    | None => k s
    end
  end.

Fixpoint rmatch (r : regex) (s : str) (k : cont) : option str :=
  match r with
  | Empty => k s
  | One cs =>
    match s with
    | c :: s' => if charset_mem cs c then k s' else None
    | [] => None
    end
  | Seq r1 r2 => rmatch r1 s (fun s' => rmatch r2 s' k)
  | Star r1 => star_loop (rmatch r1) (length s) s k
  end.

(** [Pattern.match] at the start of [s]: the length of the match. *)
Definition match_at (r : regex) (s : str) : option nat :=
  option_map (fun rest => length s - length rest) (rmatch r s Some).

(** [re.search]: the first position, from the left, where the pattern
    matches; [(start, end)] of the match found there. *)
Fixpoint search_from (r : regex) (pos : nat) (s : str) : option (nat * nat) :=
  match match_at r s with
  | Some n => Some (pos, pos + n)
  | None =>
    match s with
    | [] => None
    | _ :: s' => search_from r (S pos) s'
    end
  end.

Definition search (r : regex) (s : str) : option (nat * nat) :=
  search_from r 0 s.

(** [re.finditer]: the successive non-overlapping matches, left to right.
    [skip] counts the characters of the last match still to pass.  (What
    [re] does after an empty match is left out: the pattern of the script
    matches no empty string, lemma [matched_text_nonempty].) *)
Fixpoint finditer_from (r : regex) (skip pos : nat) (s : str)
  : list (nat * nat) :=
  match skip with
  | S skip' =>
    match s with
    | [] => []
    | _ :: s' => finditer_from r skip' (S pos) s'
    end
  | O =>
    match match_at r s with
    | Some n =>
      (pos, pos + n) ::
        match s with
        | [] => []
        | _ :: s' => finditer_from r (n - 1) (S pos) s'
        end
    | None =>
      match s with
      | [] => []
      | _ :: s' => finditer_from r 0 (S pos) s'
      end
    end
  end.

Definition finditer (r : regex) (s : str) : list (nat * nat) :=
  finditer_from r 0 0 s.

(** [re.sub(r, repl, s, count=1)] for a replacement text without
    backslash, which [re] inserts as it is: [s[:start] + repl + s[end:]]
    for the first match, and [s] itself when there is none. *)
Definition sub (r : regex) (repl s : str) : str :=
  match search r s with
  | Some (a, b) => firstn a s ++ repl ++ skipn b s
  | None => s
  end.

Definition has_backslash (s : str) : bool :=
  existsb (fun c => (c =? chr "\")%N) s.

(** What the pattern was written to accept: the set of strings a regular
    expression denotes, without any order among the ways to match. *)
Inductive matches : regex -> str -> Prop :=
| matches_empty : matches Empty []
| matches_one cs c : charset_mem cs c = true -> matches (One cs) [c]
| matches_seq r1 r2 m1 m2 :
    matches r1 m1 -> matches r2 m2 -> matches (r1 +> r2) (m1 ++ m2)
| matches_star_nil r : matches (Star r) []
| matches_star_cons r m1 m2 :
    matches r m1 -> matches (Star r) m2 -> matches (Star r) (m1 ++ m2).

End re.

Import re.

(** ** The script *)

(** [new_function], lines 8 to 44. *)
Definition new_function_literal : string := "async function getRealMarketPrice(marketId) {
    const cacheKey = `price_${marketId}`;
    const cached = priceCache.get(cacheKey);
    
    // Utiliser le cache si disponible et récent
    if (cached && Date.now() - cached.timestamp < PRICE_CACHE_TTL) {
        return cached.price;
    }
    
    try {
        // Utiliser l'API Gamma qui retourne les VRAIS prix de Polymarket
        const response = await fetchWithRetry(`https://gamma-api.polymarket.com/markets/${marketId}`);
        
        if (response.ok) {
            const market = await response.json();
            let price = 0;
            
            // 1. Priorité au dernier prix de trade (le plus récent et réel)
            if (market.lastTradePrice) {
                price = parseFloat(market.lastTradePrice);
            }
            // 2. Sinon utiliser les prix des outcomes (YES price)
            else if (market.outcomePrices && market.outcomePrices.length > 0) {
                price = parseFloat(market.outcomePrices[0]);
            }
            
            if (price > 0 && price < 1) {
                priceCache.set(cacheKey, { price, timestamp: Date.now() });
                return price;
            }
        }
    } catch (e) {
        console.error(`❌ Erreur fetch prix pour market ${marketId}:`, e.message);
    }
    
    return null; // Retourne null si échec
}".

Definition new_function : str := text_of new_function_literal.

(** [pattern], line 47 (a raw string literal, so that every backslash
    reaches [re] as it is). *)
Definition pattern_source : string :=
  "async function getRealMarketPrice\([^)]+\)\s*\{[^}]*(?:\{[^}]*\}[^}]*)*\}".

Definition not_rparen : regex := One (NotLiteral (chr ")")).
Definition not_rbrace : regex := One (NotLiteral (chr "}")).

(** The non-capturing group of the pattern: an opening brace, a run of
    characters other than the closing brace, a closing brace, and another
    such run. *)
Definition nested_block : regex :=
  One (Literal (chr "{")) +> Star not_rbrace +>
  One (Literal (chr "}")) +> Star not_rbrace.

(** What [re] compiles the pattern to (lemma [pattern_compiles]), item by
    item: the literal text [async function getRealMarketPrice], an opening
    parenthesis, one or more characters other than the closing parenthesis
    (greedy), a closing parenthesis, any whitespace (greedy), an opening
    brace, a greedy run of characters other than the closing brace, the
    group repeated greedily, and a closing brace. *)
Definition pattern : regex :=
  Lit (text_of "async function getRealMarketPrice")
   (One (Literal (chr "(")) +> Plus not_rparen +> One (Literal (chr ")")) +>
    Star (One Whitespace) +>
    One (Literal (chr "{")) +> Star not_rbrace +>
    Star nested_block +>
    One (Literal (chr "}"))).

(** Line 48: [content = re.sub(pattern, new_function, content, count=1)]. *)
Definition fix_content (content : str) : str :=
  re.sub pattern new_function content.

(** The text of line 54. *)
Definition message_literal : string :=
  "✅ Fonction getRealMarketPrice corrigée !".

Definition message : str := text_of message_literal.

Definition target : string := "unified_bot.js".

(** *** The world of the script and its monad *)

Record file := File {
  f_bytes : list byte;
  f_readable : bool;
  f_writable : bool }.

(** The directory the script runs in, what it has printed, and its
    variable [content] ([None] while unbound). *)
Record state := State {
  fs : gmap string file;
  stdout : list str;
  content : option str }.

Inductive exn :=
| FileNotFoundError
| PermissionError
| UnicodeDecodeError
| UnicodeEncodeError
| NameError.

Inductive result (A : Type) :=
| Ok (a : A)
| Raise (e : exn).
Arguments Ok {A} a.
Arguments Raise {A} e.

Definition M (A : Type) : Type := state -> result A * state.

Definition ret {A} (a : A) : M A := fun st => (Ok a, st).

Definition bind {A B} (m : M A) (f : A -> M B) : M B :=
  fun st =>
    match m st with
    | (Ok a, st') => f a st'
    | (Raise e, st') => (Raise e, st')
    end.

Definition raise {A} (e : exn) : M A := fun st => (Raise e, st).

Declare Scope script_scope.
Delimit Scope script_scope with script.
Notation "m >>= f" := (bind m f)
  (at level 58, left associativity) : script_scope.
Notation "m >> n" := (bind m (fun _ => n))
  (at level 58, left associativity) : script_scope.

Definition set_file (path : string) (f : file) : M unit :=
  fun st => (Ok tt, State (<[path := f]> (fs st)) (stdout st) (content st)).

(** [with open(path, 'r', encoding='utf-8') as f: f.read()]. *)
Definition open_read (path : string) : M str :=
  fun st =>
    match fs st !! path with
    | None => (Raise FileNotFoundError, st)
    | Some f =>
      if f_readable f then
        match read_text (f_bytes f) with
        | Some s => (Ok s, st)
        | None => (Raise UnicodeDecodeError, st)
        end
      else (Raise PermissionError, st)
    end.

(** [open(path, 'w', encoding='utf-8')]: the file is created or emptied
    as soon as it is opened. *)
Definition open_write (path : string) : M file :=
  fun st =>
    match fs st !! path with
    | None =>
      let f := File [] true true in
      (Ok f, State (<[path := f]> (fs st)) (stdout st) (content st))
    | Some f =>
      if f_writable f then
        let f' := File [] (f_readable f) (f_writable f) in
        (Ok f', State (<[path := f']> (fs st)) (stdout st) (content st))
      else (Raise PermissionError, st)
    end.

(** [f.write(s)] and the flush when the [with] block closes the file. *)
Definition write (os : platform) (path : string) (f : file) (s : str) : M unit :=
  match write_text os s with
  | Some bs => set_file path (File (f_bytes f ++ bs) (f_readable f) (f_writable f))
  | None => raise UnicodeEncodeError
  end.

Definition get_content : M str :=
  fun st =>
    match content st with
    | Some s => (Ok s, st)
    | None => (Raise NameError, st)
    end.

Definition set_content (s : str) : M unit :=
  fun st => (Ok tt, State (fs st) (stdout st) (Some s)).

(** [print(s)]; the standard output is taken to accept any text. *)
Definition print (s : str) : M unit :=
  fun st => (Ok tt, State (fs st) (stdout st ++ [s]) (content st)).

(** The script, statement by statement: lines 4 to 52 read, substitute
    and write; line 54 prints. *)
Definition patch_file (os : platform) : M unit :=
  (open_read target >>= fun text =>
   set_content text >>
   get_content >>= fun c =>
   set_content (re.sub pattern new_function c) >>
   open_write target >>= fun f =>
   get_content >>= fun c =>
   write os target f c)%script.

Definition fix_price_function (os : platform) : M unit :=
  (patch_file os >> print message)%script.

(** ** Vocabulary of the statements *)

(** The literal head of the pattern, opening parenthesis included. *)
Definition fn_header : str := text_of "async function getRealMarketPrice(".

(** The texts the matcher stops on: the header, a non-empty argument list
    free of closing parentheses, the closing parenthesis, whitespace, an
    opening brace, and everything up to the first closing brace. *)
Inductive matched_text : str -> Prop :=
| matched_text_intro (args ws body : str) :
    args <> [] ->
    ~ In (chr ")") args ->
    Forall (fun c => is_whitespace c = true) ws ->
    ~ In (chr "}") body ->
    matched_text (fn_header ++ args ++ chr ")" :: ws ++ chr "{" :: body ++ [chr "}"]).

(** A code point [str.encode] accepts. *)
Definition encodable (c : codepoint) : Prop := utf8_encode_char c <> None.

(** The slice [s[a:b]] of Python. *)
Definition slice (a b : nat) (s : str) : str := firstn (b - a) (skipn a s).

(** The ways the script can fail on its file, with the exception raised
    and the value its variable [content] holds when it stops. *)
Inductive failure (st : state) : exn -> option str -> Prop :=
| failure_missing :
    fs st !! target = None ->
    failure st FileNotFoundError (content st)
| failure_unreadable (f : file) :
    fs st !! target = Some f -> f_readable f = false ->
    failure st PermissionError (content st)
| failure_undecodable (f : file) :
    fs st !! target = Some f -> f_readable f = true ->
    utf8_decode (f_bytes f) = None ->
    failure st UnicodeDecodeError (content st)
| failure_unwritable (f : file) (t : str) :
    fs st !! target = Some f -> f_readable f = true ->
    read_text (f_bytes f) = Some t -> f_writable f = false ->
    failure st PermissionError (Some (fix_content t)).

(** The deepest nesting of braces in a text. *)
Fixpoint brace_depth (depth deepest : nat) (s : str) : nat :=
  match s with
  | [] => deepest
  | c :: s' =>
    if (c =? chr "{")%N then brace_depth (S depth) (Nat.max deepest (S depth)) s'
    else if (c =? chr "}")%N then brace_depth (depth - 1) deepest s'
    else brace_depth depth deepest s'
  end.

(** ** Sample files *)

Definition flat_function : string :=
  "async function getRealMarketPrice(id) { return 0.5; }".

(** A function whose body holds one nested block. *)
Definition nested_function : string :=
  "async function getRealMarketPrice(id) { if (a) { b } c }".

Definition crlf : list byte := [x0d; x0a].

(** A file with Windows line ends around the function. *)
Definition crlf_file : file :=
  File (bytes_of "// bot" ++ crlf ++ bytes_of flat_function ++ crlf) true true.

(** A file with Windows line ends and nothing to patch. *)
Definition crlf_plain_file : file :=
  File (bytes_of "let a = 1;" ++ crlf) true true.

(** A file with text outside ASCII on both sides of the function. *)
Definition emoji_text : string := "log('❌ échec');
async function getRealMarketPrice(id) { return 0.5; }
log('✅ terminé');
".

Definition emoji_file : file := File (bytes_of emoji_text) true true.

(** A file with nothing to patch. *)
Definition plain_text : string := "log('❌ rien à corriger');
".

Definition plain_file : file := File (bytes_of plain_text) true true.

(** A text with the function twice and a third one after. *)
Definition three_functions : string :=
  "async function getRealMarketPrice(id) { return 0.5; }
async function getRealMarketPrice(é) { return '❌'; }
async function getRealMarketPrice(z) {}".

Definition read_only_file : file :=
  File (bytes_of flat_function) true false.

(** A directory with another file next to the target, in a session that
    has printed something before. *)
Definition busy (f : file) : state :=
  State (<["notes.txt" := File (bytes_of "à faire") true false]> {[ target := f ]})
        [text_of "déjà imprimé"] None.

(** The directory holding just the target file, before the script starts. *)
Definition only (f : file) : state := State {[ target := f ]} [] None.

(** What a run on [emoji_file] is expected to leave behind. *)
Definition emoji_patched (st : state) : state :=
  State (<[target := File (bytes_of "log('❌ échec');
" ++ bytes_of new_function_literal ++ bytes_of "
log('✅ terminé');
") true true]> (fs st))
        (stdout st ++ [message])
        (Some (fix_content (text_of emoji_text))).

(** ** Line ends of the platform *)

(** Every CR is followed by LF and every LF follows a CR. *)
Fixpoint crlf_pairs (s : str) : bool :=
  match s with
  | [] => true
  | c :: s' =>
    if (c =? CR)%N then
      match s' with
      | d :: s'' => (d =? LF)%N && crlf_pairs s''
      | [] => false
      end
    else if (c =? LF)%N then false
    else crlf_pairs s'
  end.

(** The text of a file whose line ends are all the platform's own: no
    carriage return where [os.linesep] is LF, only CR LF pairs where it is
    CR LF. *)
Definition native_newlines (os : platform) (t : str) : bool :=
  match os with
  | Posix => negb (existsb (N.eqb CR) t)
  | Windows => crlf_pairs t
  end.

(** A file with Windows line ends only, around the function. *)
Definition windows_file : file :=
  File (bytes_of "log('❌ échec');" ++ crlf ++ bytes_of flat_function ++ crlf
        ++ bytes_of "log('✅ terminé');" ++ crlf) true true.

(** A file with Windows line ends only and nothing to patch. *)
Definition windows_plain_file : file :=
  File (bytes_of "log('❌ rien à corriger');" ++ crlf) true true.

Definition windows_text : str :=
  text_of "log('❌ échec');" ++ [CR; LF] ++ text_of flat_function ++ [CR; LF]
  ++ text_of "log('✅ terminé');" ++ [CR; LF].

Definition windows_plain_text : str :=
  text_of "log('❌ rien à corriger');" ++ [CR; LF].

(** The file with nothing to patch, its bytes the same, but not writable. *)
Definition plain_read_only_file : file :=
  File (bytes_of plain_text) true false.

(** A function cut before its closing brace. *)
Definition unclosed_function : string :=
  "async function getRealMarketPrice(id) { return 0.5;".

(** * Properties *)

(** ** The UTF-8 codec *)

Ltac bool_hyps :=
  repeat match goal with
  | H : _ && _ = true |- _ => apply andb_true_iff in H; destruct H
  | H : negb _ = true |- _ => apply negb_true_iff in H
  | H : negb _ = false |- _ => apply negb_false_iff in H
  | H : _ && _ = false |- _ => apply andb_false_iff in H
  | H : _ || _ = false |- _ => apply orb_false_iff in H; destruct H
  | H : (_ <? _)%N = true |- _ => apply N.ltb_lt in H
  | H : (_ <? _)%N = false |- _ => apply N.ltb_ge in H
  | H : (_ <=? _)%N = true |- _ => apply N.leb_le in H
  | H : (_ <=? _)%N = false |- _ => apply N.leb_gt in H
  | H : (_ =? _)%N = true |- _ => apply N.eqb_eq in H
  | H : (_ =? _)%N = false |- _ => apply N.eqb_neq in H
  end.

Ltac ndiv := zify; Z.to_euclidean_division_equations; lia.

Create Rewrite HintDb list_len.
#[local] Hint Rewrite @length_app @length_cons @length_nil : list_len.

Lemma byte_of_to_N (b : byte) : byte_of_N (Byte.to_N b) = b.
Proof. unfold byte_of_N. now rewrite Byte.of_to_N. Qed.

Lemma byte_of_N_eq (n : N) (b : byte) : n = Byte.to_N b -> byte_of_N n = b.
Proof. intros ->. apply byte_of_to_N. Qed.

Lemma is_continuation_spec (c : N) :
  is_continuation c = true <-> (0x80 <= c <= 0xBF)%N.
Proof.
  unfold is_continuation. rewrite andb_true_iff, !N.leb_le. tauto.
Qed.

Lemma utf8_encode_char_1 (c : N) :
  (c < 0x80)%N -> utf8_encode_char c = Some [byte_of_N c].
Proof.
  intros H. unfold utf8_encode_char.
  destruct (N.ltb_spec c 0x80); [reflexivity | lia].
Qed.

Lemma utf8_encode_char_2 (c : N) :
  (0x80 <= c < 0x800)%N ->
  utf8_encode_char c =
  Some [byte_of_N (0xC0 + c / 64); byte_of_N (0x80 + c mod 64)]%N.
Proof.
  intros H. unfold utf8_encode_char.
  destruct (N.ltb_spec c 0x80); [lia |].
  destruct (N.ltb_spec c 0x800); [reflexivity | lia].
Qed.

Lemma utf8_encode_char_3 (c : N) :
  (0x800 <= c < 0x10000)%N -> ~ (0xD800 <= c <= 0xDFFF)%N ->
  utf8_encode_char c =
  Some [byte_of_N (0xE0 + c / 4096); byte_of_N (0x80 + (c / 64) mod 64);
        byte_of_N (0x80 + c mod 64)]%N.
Proof.
  intros H Hs. unfold utf8_encode_char.
  destruct (N.ltb_spec c 0x80); [lia |].
  destruct (N.ltb_spec c 0x800); [lia |].
  destruct (N.ltb_spec c 0x10000); [| lia].
  destruct (N.leb_spec 0xD800 c), (N.leb_spec c 0xDFFF); simpl;
    first [reflexivity | lia].
Qed.

Lemma utf8_encode_char_4 (c : N) :
  (0x10000 <= c < 0x110000)%N ->
  utf8_encode_char c =
  Some [byte_of_N (0xF0 + c / 262144); byte_of_N (0x80 + (c / 4096) mod 64);
        byte_of_N (0x80 + (c / 64) mod 64); byte_of_N (0x80 + c mod 64)]%N.
Proof.
  intros H. unfold utf8_encode_char.
  destruct (N.ltb_spec c 0x80); [lia |].
  destruct (N.ltb_spec c 0x800); [lia |].
  destruct (N.ltb_spec c 0x10000); [lia |].
  destruct (N.ltb_spec c 0x110000); [reflexivity | lia].
Qed.

Lemma utf8_encode_cons (c : codepoint) (s : str) (bc bs : list byte) :
  utf8_encode_char c = Some bc -> utf8_encode s = Some bs ->
  utf8_encode (c :: s) = Some (bc ++ bs).
Proof. intros Hc Hs. cbn [utf8_encode]. now rewrite Hc, Hs. Qed.

(** Decoding is injective: what was decoded encodes back to the same bytes. *)
Lemma utf8_roundtrip (bs : list byte) :
  forall t, utf8_decode bs = Some t -> utf8_encode t = Some bs.
Proof.
  remember (length bs) as n eqn:Hn. revert bs Hn.
  induction n as [n IH] using lt_wf_ind. intros bs Hn t Hd.
  destruct bs as [|b0 r0]; cbn [utf8_decode] in Hd.
  { inversion Hd. reflexivity. }
  pose proof (Byte.to_N_bounded b0) as B0.
  cbv zeta in Hd.
  destruct (Byte.to_N b0 <? 0x80)%N eqn:E1.
  { destruct (utf8_decode r0) as [t0|] eqn:Er; inversion Hd; subst t.
    bool_hyps.
    apply (utf8_encode_cons _ _ [b0] r0).
    - rewrite utf8_encode_char_1 by assumption. now rewrite byte_of_to_N.
    - apply (IH (length r0)); [subst n; simpl; lia | reflexivity | assumption]. }
  destruct (Byte.to_N b0 <? 0xC2)%N eqn:E2; [discriminate |].
  destruct (Byte.to_N b0 <? 0xE0)%N eqn:E3.
  { destruct r0 as [|b1 r1]; [discriminate |].
    destruct (is_continuation (Byte.to_N b1)) eqn:C1; [| discriminate].
    destruct (utf8_decode r1) as [t0|] eqn:Er; inversion Hd; subst t.
    apply is_continuation_spec in C1. bool_hyps.
    apply (utf8_encode_cons _ _ [b0; b1] r1).
    - rewrite utf8_encode_char_2 by lia.
      repeat f_equal; apply byte_of_N_eq; ndiv.
    - apply (IH (length r1)); [subst n; simpl; lia | reflexivity | assumption]. }
  destruct (Byte.to_N b0 <? 0xF0)%N eqn:E4.
  { destruct r0 as [|b1 [|b2 r2]]; try discriminate.
    match type of Hd with (if ?c then _ else _) = _ =>
      destruct c eqn:C; [| discriminate] end.
    destruct (utf8_decode r2) as [t0|] eqn:Er; inversion Hd; subst t.
    bool_hyps.
    repeat match goal with
           | H : is_continuation _ = true |- _ => apply is_continuation_spec in H
           end.
    apply (utf8_encode_cons _ _ [b0; b1; b2] r2).
    - rewrite utf8_encode_char_3.
      + repeat f_equal; apply byte_of_N_eq; ndiv.
      + repeat match goal with H : _ \/ _ |- _ => destruct H end;
          bool_hyps; lia.
      + repeat match goal with H : _ \/ _ |- _ => destruct H end;
          bool_hyps; lia.
    - apply (IH (length r2)); [subst n; simpl; lia | reflexivity | assumption]. }
  destruct (Byte.to_N b0 <? 0xF5)%N eqn:E5; [| discriminate].
  destruct r0 as [|b1 [|b2 [|b3 r3]]]; try discriminate.
  match type of Hd with (if ?c then _ else _) = _ =>
    destruct c eqn:C; [| discriminate] end.
  destruct (utf8_decode r3) as [t0|] eqn:Er; inversion Hd; subst t.
  bool_hyps.
  repeat match goal with
         | H : is_continuation _ = true |- _ => apply is_continuation_spec in H
         end.
  apply (utf8_encode_cons _ _ [b0; b1; b2; b3] r3).
  - rewrite utf8_encode_char_4.
    + repeat f_equal; apply byte_of_N_eq; ndiv.
    + repeat match goal with H : _ \/ _ |- _ => destruct H end;
        bool_hyps; lia.
  - apply (IH (length r3)); [subst n; simpl; lia | reflexivity | assumption].
Qed.

Lemma utf8_encode_app (a b : str) (x y : list byte) :
  utf8_encode a = Some x -> utf8_encode b = Some y ->
  utf8_encode (a ++ b) = Some (x ++ y).
Proof.
  revert x. induction a as [|c a IH]; intros x Ha Hb; cbn [utf8_encode app] in *.
  - inversion Ha. assumption.
  - destruct (utf8_encode_char c) as [bc|]; [| discriminate].
    destruct (utf8_encode a) as [ba|]; [| discriminate].
    inversion Ha; subst x. rewrite (IH ba eq_refl Hb).
    now rewrite <- app_assoc.
Qed.

Lemma utf8_encode_app_inv (a b : str) (z : list byte) :
  utf8_encode (a ++ b) = Some z ->
  exists x y, utf8_encode a = Some x /\ utf8_encode b = Some y /\ z = x ++ y.
Proof.
  revert z. induction a as [|c a IH]; intros z H; cbn [utf8_encode app] in *.
  - exists [], z. auto.
  - destruct (utf8_encode_char c) as [bc|]; [| discriminate].
    destruct (utf8_encode (a ++ b)) as [bab|] eqn:E; [| discriminate].
    destruct (IH bab eq_refl) as (x & y & -> & Hy & ->).
    inversion H; subst z. exists (bc ++ x), y.
    now rewrite <- app_assoc.
Qed.

Lemma utf8_encode_total (s : str) :
  Forall encodable s -> exists bs, utf8_encode s = Some bs.
Proof.
  induction 1 as [|c s Hc _ [bs IH]]; cbn [utf8_encode].
  - now exists [].
  - unfold encodable in Hc. destruct (utf8_encode_char c) as [bc|]; [| easy].
    rewrite IH. now exists (bc ++ bs).
Qed.

Lemma utf8_encode_encodable (s : str) (bs : list byte) :
  utf8_encode s = Some bs -> Forall encodable s.
Proof.
  revert bs. induction s as [|c s IH]; intros bs H; [constructor |].
  cbn [utf8_encode] in H.
  destruct (utf8_encode_char c) as [bc|] eqn:Ec; [| discriminate].
  destruct (utf8_encode s) as [bs'|] eqn:Es; [| discriminate].
  constructor.
  - unfold encodable. now rewrite Ec.
  - now apply (IH bs').
Qed.

Lemma utf8_decode_encodable (bs : list byte) (t : str) :
  utf8_decode bs = Some t -> Forall encodable t.
Proof. intros H. eapply utf8_encode_encodable, utf8_roundtrip, H. Qed.

(** A carriage return in the text is a byte 0D in its encoding. *)
Lemma utf8_encode_CR (s : str) (bs : list byte) :
  utf8_encode s = Some bs -> In CR s -> In x0d bs.
Proof.
  revert bs. induction s as [|c s IH]; intros bs H Hin; [easy |].
  cbn [utf8_encode] in H.
  destruct (utf8_encode_char c) as [bc|] eqn:Ec; [| discriminate].
  destruct (utf8_encode s) as [bs'|] eqn:Es; [| discriminate].
  inversion H; subst bs. apply in_or_app. destruct Hin as [-> | Hin].
  - left. vm_compute in Ec. inversion Ec. now left.
  - right. now apply IH.
Qed.

(** ** Newline translation *)

Lemma universal_newlines_id (s : str) :
  ~ In CR s -> universal_newlines s = s.
Proof.
  induction s as [|c s IH]; intros H; cbn [universal_newlines]; [reflexivity |].
  destruct (N.eqb_spec c CR) as [-> | _].
  - exfalso. apply H. now left.
  - f_equal. apply IH. intros Hin. apply H. now right.
Qed.

Lemma translate_newlines_posix (s : str) : translate_newlines Posix s = s.
Proof.
  unfold translate_newlines. induction s as [|c s IH]; cbn [flat_map]; [reflexivity |].
  rewrite IH. destruct (N.eqb_spec c LF) as [-> | _]; reflexivity.
Qed.

Lemma universal_newlines_Forall (P : codepoint -> Prop) (s : str) :
  P LF -> Forall P s -> Forall P (universal_newlines s).
Proof.
  intros HLF. remember (length s) as n eqn:Hn. revert s Hn.
  induction n as [n IH] using lt_wf_ind. intros s Hn Hs.
  destruct s as [|c s]; cbn [universal_newlines]; [constructor |].
  inversion Hs as [|? ? Hc Hs']; subst.
  destruct (c =? CR)%N.
  - constructor; [assumption |]. destruct s as [|d s]; [constructor |].
    inversion Hs'; subst.
    destruct (d =? LF)%N; eapply IH; try reflexivity; try assumption;
      simpl; lia.
  - constructor; [assumption |].
    eapply IH; try reflexivity; try assumption. simpl; lia.
Qed.

Lemma translate_newlines_Forall (P : codepoint -> Prop) (os : platform) (s : str) :
  Forall P (linesep os) -> Forall P s -> Forall P (translate_newlines os s).
Proof.
  intros Hl. unfold translate_newlines.
  induction 1 as [|c s Hc _ IH]; cbn [flat_map]; [constructor |].
  apply Forall_app. split; [| assumption].
  destruct (c =? LF)%N; [assumption | now constructor].
Qed.

Lemma linesep_encodable (os : platform) : Forall encodable (linesep os).
Proof. destruct os; repeat constructor; unfold encodable; now vm_compute. Qed.

Lemma new_function_decodes :
  utf8_decode (bytes_of new_function_literal) = Some new_function.
Proof. now vm_compute. Qed.

Lemma new_function_encodes :
  utf8_encode new_function = Some (bytes_of new_function_literal).
Proof. apply utf8_roundtrip, new_function_decodes. Qed.

(** The replacement text holds no backslash, so [re.sub] inserts it as
    it is, and no carriage return. *)
Lemma new_function_plain :
  has_backslash new_function = false /\ ~ In CR new_function.
Proof.
  split; [now vm_compute |].
  intros H.
  assert (E : existsb (fun c => (c =? CR)%N) new_function = false)
    by now vm_compute.
  assert (E' : existsb (fun c => (c =? CR)%N) new_function = true)
    by (apply existsb_exists; exists CR; split; [assumption | apply N.eqb_refl]).
  congruence.
Qed.

(** ** The matcher *)

(** What the matcher returns comes from its continuation, called on what
    is left of the input after a string the expression denotes. *)
Lemma rmatch_sound (r : regex) :
  forall s k x, rmatch r s k = Some x ->
  exists m t, s = m ++ t /\ matches r m /\ k t = Some x.
Proof.
  induction r as [|cs|r1 IH1 r2 IH2|r IH]; intros s k x H; cbn [rmatch] in H.
  - exists [], s. repeat split; [constructor | assumption].
  - destruct s as [|c s]; [discriminate |].
    destruct (charset_mem cs c) eqn:E; [| discriminate].
    exists [c], s. repeat split; [now constructor | assumption].
  - apply IH1 in H. destruct H as (m1 & t1 & -> & M1 & H).
    apply IH2 in H. destruct H as (m2 & t2 & -> & M2 & H).
    exists (m1 ++ m2), t2. rewrite <- app_assoc.
    repeat split; [now constructor | assumption].
  - remember (length s) as n eqn:Hn. clear Hn. revert s H.
    induction n as [|n IHn]; intros s H; cbn [star_loop] in H.
    + exists [], s. repeat split; [constructor | assumption].
    + match type of H with match ?b with _ => _ end = _ =>
        destruct b as [y|] eqn:E end.
      * inversion H; subst y. apply IH in E.
        destruct E as (m1 & t1 & -> & M1 & E).
        destruct (length t1 <? length (m1 ++ t1)); [| discriminate].
        apply IHn in E. destruct E as (m2 & t2 & -> & M2 & E).
        exists (m1 ++ m2), t2. rewrite <- app_assoc.
        repeat split; [now constructor | assumption].
      * exists [], s. repeat split; [constructor | assumption].
Qed.

Lemma rmatch_suffix (r : regex) (s rest : str) :
  rmatch r s Some = Some rest -> exists m, s = m ++ rest /\ matches r m.
Proof.
  intros H. apply rmatch_sound in H. destruct H as (m & t & -> & M & E).
  inversion E; subst. now exists m.
Qed.

(** The matcher calls its continuation on inputs no longer than its own. *)
Lemma rmatch_ext (r : regex) :
  forall s k1 k2, (forall t, length t <= length s -> k1 t = k2 t) ->
  rmatch r s k1 = rmatch r s k2.
Proof.
  induction r as [|cs|r1 IH1 r2 IH2|r IH]; intros s k1 k2 H; cbn [rmatch].
  - apply H. lia.
  - destruct s as [|c s]; [reflexivity |].
    destruct (charset_mem cs c); [| reflexivity]. apply H. simpl. lia.
  - apply IH1. intros t Ht. apply IH2. intros t' Ht'. apply H. lia.
  - generalize (length s) at 1 2 as n. intros n. revert s H.
    induction n as [|n IHn]; intros s H; cbn [star_loop].
    + apply H. lia.
    + rewrite (IH s _ (fun s' => if length s' <? length s
                                 then star_loop (rmatch r) n s' k2 else None)).
      * rewrite (H s) by lia. reflexivity.
      * intros t Ht. destruct (Nat.ltb_spec (length t) (length s)); [| reflexivity].
        apply IHn. intros t' Ht'. apply H. lia.
Qed.

Lemma rmatch_fail (r : regex) (s : str) (k : cont) :
  (forall t, length t <= length s -> k t = None) -> rmatch r s k = None.
Proof.
  intros H. rewrite (rmatch_ext r s k (fun _ => None)) by assumption.
  destruct (rmatch r s (fun _ => None)) eqn:E; [| assumption].
  apply rmatch_sound in E. destruct E as (? & ? & _ & _ & E). discriminate.
Qed.

(** Fuel: a repetition never needs more rounds than the input has
    characters, so the fuel [rmatch] gives [star_loop] is enough. *)
Lemma star_loop_fuel (r : regex) (k : cont) :
  forall n1 n2 s, length s <= n1 -> length s <= n2 ->
  star_loop (rmatch r) n1 s k = star_loop (rmatch r) n2 s k.
Proof.
  assert (Z : forall n s, length s <= 0 ->
              star_loop (rmatch r) n s k = k s).
  { intros [|n] s Hs; cbn [star_loop]; [reflexivity |].
    rewrite rmatch_fail; [reflexivity |].
    intros t Ht. destruct (Nat.ltb_spec (length t) (length s)); [lia | reflexivity]. }
  induction n1 as [|n1 IH]; intros n2 s H1 H2.
  - now rewrite !Z.
  - destruct n2 as [|n2]; [now rewrite !Z |]. cbn [star_loop].
    rewrite (rmatch_ext r s _ (fun s' => if length s' <? length s
                                then star_loop (rmatch r) n2 s' k else None)).
    + reflexivity.
    + intros t Ht. destruct (Nat.ltb_spec (length t) (length s)); [| reflexivity].
      apply IH; lia.
Qed.

Lemma rmatch_Lit (h t : str) (r : regex) (k : cont) :
  rmatch (Lit h r) (h ++ t) k = rmatch r t k.
Proof.
  induction h as [|c h IH]; cbn [Lit rmatch app charset_mem]; [reflexivity |].
  now rewrite N.eqb_refl.
Qed.

Lemma matches_One_inv (cs : charset) (m : str) :
  matches (One cs) m -> exists c, m = [c] /\ charset_mem cs c = true.
Proof. inversion 1; subst. eauto. Qed.

Lemma matches_Lit_inv (h : str) (r : regex) (m : str) :
  matches (Lit h r) m -> exists m', m = h ++ m' /\ matches r m'.
Proof.
  revert m. induction h as [|c h IH]; intros m H; cbn [Lit] in H.
  - now exists m.
  - inversion H as [| |? ? m1 m2 H1 H2| |]; subst.
    apply matches_One_inv in H1. destruct H1 as (d & -> & E).
    cbn [charset_mem] in E. apply N.eqb_eq in E. subst d.
    destruct (IH _ H2) as (m' & -> & Hm'). now exists m'.
Qed.

Lemma matches_Star_One_inv (cs : charset) (m : str) :
  matches (Star (One cs)) m -> Forall (fun c => charset_mem cs c = true) m.
Proof.
  intros H. remember (Star (One cs)) as r eqn:Hr.
  induction H as [| | | |r' m1 m2 H1 _ H2 IH2]; try discriminate.
  - constructor.
  - inversion Hr; subst r'. apply matches_One_inv in H1.
    destruct H1 as (c & -> & E). constructor; [assumption | now apply IH2].
Qed.

(** A greedy run of a character set, stopped by a literal outside the
    set: the run takes all it can and nothing is given back. *)
Lemma star_until (cs : charset) (c : codepoint) (k : cont) (t : str) :
  charset_mem cs c = false ->
  forall body n,
    Forall (fun x => charset_mem cs x = true) body ->
    length (body ++ c :: t) <= n ->
    star_loop (rmatch (One cs)) n (body ++ c :: t)
              (fun s' => rmatch (One (Literal c)) s' k) = k t.
Proof.
  intros Hc. induction body as [|x body IH]; intros n Hb Hn.
  - destruct n as [|n]; [simpl in Hn; lia |].
    cbn [star_loop rmatch app]. rewrite Hc. cbn [charset_mem].
    now rewrite N.eqb_refl.
  - inversion Hb as [|? ? Hx Hb']; subst.
    destruct n as [|n]; [simpl in Hn; lia |].
    cbn [star_loop rmatch app]. rewrite Hx.
    destruct (Nat.ltb_spec (length (body ++ c :: t)) (length (x :: body ++ c :: t)))
      as [_ | Hl]; [| simpl in Hl; lia].
    rewrite IH by (try assumption; simpl in Hn; lia).
    destruct (k t) eqn:E; [reflexivity |].
    cbn [charset_mem]. destruct (N.eqb_spec x c) as [-> | _]; [congruence | reflexivity].
Qed.

Lemma rmatch_star_until (cs : charset) (c : codepoint) (r : regex) (k : cont)
      (body t : str) :
  charset_mem cs c = false ->
  Forall (fun x => charset_mem cs x = true) body ->
  rmatch (Star (One cs) +> One (Literal c) +> r) (body ++ c :: t) k
  = rmatch r t k.
Proof.
  intros Hc Hb. cbn [rmatch].
  apply (star_until cs c (fun s' => rmatch r s' k) t Hc body _ Hb). lia.
Qed.

(** ** The pattern of the script *)

(** The syntax tree the matcher runs is the one the source text of the
    pattern denotes. *)
Lemma pattern_compiles : re.compile pattern_source = Some pattern.
Proof. reflexivity. Qed.

Lemma rmatch_Seq (r1 r2 : regex) (s : str) (k : cont) :
  rmatch (r1 +> r2) s k = rmatch r1 s (fun s' => rmatch r2 s' k).
Proof. reflexivity. Qed.

Lemma rmatch_One_hit (cs : charset) (c : codepoint) (s : str) (k : cont) :
  charset_mem cs c = true -> rmatch (One cs) (c :: s) k = k s.
Proof. intros H. cbn [rmatch]. now rewrite H. Qed.

Lemma rmatch_Plus_One (cs : charset) (r : regex) (x : codepoint) (s : str)
      (k : cont) :
  charset_mem cs x = true ->
  rmatch (Plus (One cs) +> r) (x :: s) k = rmatch (Star (One cs) +> r) s k.
Proof. intros H. unfold Plus. rewrite !rmatch_Seq. now rewrite rmatch_One_hit. Qed.

Lemma not_literal_Forall (c : codepoint) (l : str) :
  ~ In c l -> Forall (fun x => charset_mem (NotLiteral c) x = true) l.
Proof.
  intros H. apply List.Forall_forall. intros x Hx. cbn [charset_mem].
  destruct (N.eqb_spec x c) as [-> | _]; [contradiction | reflexivity].
Qed.

Lemma first_occurrence (x : codepoint) (l : str) :
  In x l -> exists l1 l2, l = l1 ++ x :: l2 /\ ~ In x l1.
Proof.
  induction l as [|y l IH]; intros H; [easy |].
  destruct (N.eq_dec y x) as [-> | Hne].
  - exists [], l. split; [reflexivity | easy].
  - destruct H as [-> | H]; [easy |].
    destruct (IH H) as (l1 & l2 & -> & Hn).
    exists (y :: l1), l2. split; [reflexivity |].
    intros [E | E]; [now apply Hne | now apply Hn].
Qed.

Lemma rmatch_Star (r : regex) (s : str) (k : cont) :
  rmatch (Star r) s k = star_loop (rmatch r) (length s) s k.
Proof. reflexivity. Qed.

Ltac len :=
  repeat (autorewrite with list_len in *; cbn [length] in * );
  try lia.

Lemma body_loop (rest : str) :
  forall body n,
    ~ In (chr "}") body ->
    length (body ++ chr "}" :: rest) <= n ->
    star_loop (rmatch not_rbrace) n (body ++ chr "}" :: rest)
      (fun s' => rmatch (Star nested_block +> One (Literal (chr "}"))) s' Some)
    = Some rest.
Proof.
  induction body as [|x body IH]; intros n Hb Hn.
  - destruct n as [|n]; [len |]. reflexivity.
  - destruct n as [|n]; [len |].
    cbn [star_loop app]. unfold not_rbrace at 1. cbn [rmatch charset_mem].
    destruct (N.eqb_spec x (chr "}")) as [-> | _].
    { exfalso. apply Hb. now left. }
    cbn [negb].
    destruct (Nat.ltb_spec (length (body ++ chr "}" :: rest))
                           (length (x :: body ++ chr "}" :: rest)))
      as [_ | Hl]; [| len].
    rewrite IH; [reflexivity | | len].
    intros Hin. apply Hb. now right.
Qed.

(** From the opening brace on, the matcher stops at the first closing
    brace: the greedy run takes every character up to it, the group cannot
    start on a closing brace, and the final item accepts it. *)
Lemma rmatch_body_first_brace (body rest : str) :
  ~ In (chr "}") body ->
  rmatch (Star not_rbrace +> Star nested_block +> One (Literal (chr "}")))
         (body ++ chr "}" :: rest) Some = Some rest.
Proof.
  intros Hb. rewrite rmatch_Seq, rmatch_Star. now apply body_loop.
Qed.

Ltac norm_app :=
  repeat (rewrite <- app_assoc || rewrite <- app_comm_cons || rewrite app_nil_l).

Lemma matches_Seq_inv (r1 r2 : regex) (m : str) :
  matches (r1 +> r2) m ->
  exists m1 m2, m = m1 ++ m2 /\ matches r1 m1 /\ matches r2 m2.
Proof. inversion 1; subst. eauto. Qed.

Lemma fn_header_split :
  fn_header = text_of "async function getRealMarketPrice" ++ [chr "("].
Proof. reflexivity. Qed.

(** A text of the described form is matched, whatever follows it. *)
Lemma pattern_matches_text (m rest : str) :
  matched_text m -> rmatch pattern (m ++ rest) Some = Some rest.
Proof.
  intros [args ws body Ha Hp Hw Hb].
  destruct args as [|a args]; [easy |].
  rewrite fn_header_split. unfold pattern.
  norm_app. rewrite rmatch_Lit.
  rewrite rmatch_Seq, rmatch_One_hit by apply N.eqb_refl.
  assert (Hne : a <> chr ")") by (intros ->; apply Hp; now left).
  assert (Hp' : ~ In (chr ")") args) by (intros H; apply Hp; now right).
  unfold not_rparen. rewrite rmatch_Plus_One
    by (cbn [charset_mem]; now destruct (N.eqb_spec a (chr ")"))).
  rewrite rmatch_star_until
    by (try apply not_literal_Forall; try assumption;
        cbn [charset_mem]; now rewrite N.eqb_refl).
  rewrite rmatch_star_until by (try assumption; reflexivity).
  now apply rmatch_body_first_brace.
Qed.

Lemma matches_pattern_inv (m : str) :
  matches pattern m ->
  exists args ws tl,
    m = fn_header ++ args ++ chr ")" :: ws ++ chr "{" :: tl ++ [chr "}"]
    /\ args <> [] /\ ~ In (chr ")") args
    /\ Forall (fun c => is_whitespace c = true) ws.
Proof.
  unfold pattern, Plus, not_rparen. intros H.
  apply matches_Lit_inv in H. destruct H as (? & -> & H).
  repeat match goal with
         | H : matches (_ +> _) _ |- _ =>
           apply matches_Seq_inv in H; destruct H as (? & ? & -> & ? & H)
         end.
  repeat match goal with
         | H : matches (One (Literal _)) _ |- _ =>
           apply matches_One_inv in H; destruct H as (? & -> & H);
           cbn [charset_mem] in H; apply N.eqb_eq in H; subst
         | H : matches (One (NotLiteral _)) _ |- _ =>
           apply matches_One_inv in H; destruct H as (? & -> & H)
         | H : matches (Star (One _)) _ |- _ => apply matches_Star_One_inv in H
         end.
  match goal with
  | Ha : charset_mem (NotLiteral _) ?a = true,
    Hs : Forall (fun c => charset_mem (NotLiteral _) c = true) ?args,
    Hw : Forall (fun c => charset_mem Whitespace c = true) ?ws
    |- context [?ws ++ [chr "{"] ++ ?x ++ ?y ++ _] =>
    exists (a :: args), ws, (x ++ y);
    rename Ha into A; rename Hs into S; rename Hw into W
  end.
  split; [| split; [easy | split]].
  - rewrite fn_header_split. norm_app. reflexivity.
  - intros Hin. rewrite List.Forall_forall in S.
    assert (E : charset_mem (NotLiteral (chr ")")) (chr ")") = true).
    { destruct Hin as [-> | Hin]; [exact A | now apply S]. }
    discriminate.
  - exact W.
Qed.

(** The matcher succeeds at the start of a text exactly on the described
    form, and leaves what follows its first closing brace. *)
Lemma pattern_match_spec (s rest : str) :
  rmatch pattern s Some = Some rest <->
  exists m, s = m ++ rest /\ matched_text m.
Proof.
  split.
  - intros H. destruct (rmatch_suffix _ _ _ H) as (m & -> & Hm).
    exists m. split; [reflexivity |].
    apply matches_pattern_inv in Hm.
    destruct Hm as (args & ws & tl & -> & Ha & Hp & Hw).
    destruct (first_occurrence (chr "}") ((tl ++ [chr "}"]) ++ rest))
      as (body & rest' & E & Hb).
    { apply in_or_app. left. apply in_or_app. right. now left. }
    assert (M : matched_text
                  (fn_header ++ args ++ chr ")" :: ws ++ chr "{" :: body ++ [chr "}"]))
      by now constructor.
    pose proof (pattern_matches_text _ rest' M) as H'.
    replace ((fn_header ++ args ++ chr ")" :: ws ++ chr "{" :: body ++ [chr "}"])
             ++ rest')
      with ((fn_header ++ args ++ chr ")" :: ws ++ chr "{" :: tl ++ [chr "}"])
            ++ rest) in H'.
    + rewrite H in H'. inversion H'; subst rest'.
      assert (E' : tl ++ [chr "}"] = body ++ [chr "}"]).
      { apply (app_inv_tail rest). rewrite E. now rewrite <- app_assoc. }
      now rewrite E'.
    + repeat (rewrite <- app_assoc; cbn [app]).
      do 2 f_equal. f_equal. f_equal. f_equal.
      rewrite <- app_assoc in E. cbn [app] in E. exact E.
  - intros (m & -> & Hm). now apply pattern_matches_text.
Qed.

(** ** Searching and substituting *)

Lemma match_at_Some (r : regex) (s : str) (n : nat) :
  match_at r s = Some n ->
  exists m rest, s = m ++ rest /\ length m = n
                 /\ rmatch r s Some = Some rest /\ matches r m.
Proof.
  unfold match_at. destruct (rmatch r s Some) as [rest|] eqn:E; [| discriminate].
  intros H. inversion H; subst n. clear H.
  destruct (rmatch_suffix _ _ _ E) as (m & -> & Hm).
  exists m, rest. repeat split; [len | assumption].
Qed.

Lemma match_at_rmatch (r : regex) (m rest : str) :
  rmatch r (m ++ rest) Some = Some rest ->
  match_at r (m ++ rest) = Some (length m).
Proof. intros H. unfold match_at. rewrite H. cbn. f_equal. len. Qed.

Lemma match_at_None (r : regex) (s : str) :
  match_at r s = None <-> rmatch r s Some = None.
Proof. unfold match_at. destruct (rmatch r s Some); cbn; split; congruence. Qed.

(** [search] returns the leftmost position where the matcher succeeds,
    with the match the matcher finds there. *)
Lemma search_from_Some (r : regex) :
  forall s pos a b, search_from r pos s = Some (a, b) ->
  exists pre m post,
    s = pre ++ m ++ post /\ a = pos + length pre /\ b = a + length m
    /\ rmatch r (m ++ post) Some = Some post
    /\ matches r m
    /\ forall j, j < length pre -> match_at r (skipn j s) = None.
Proof.
  induction s as [|c s IH]; intros pos a b H; cbn [search_from] in H.
  - destruct (match_at r []) as [n|] eqn:E; [| discriminate].
    inversion H; subst a b. clear H.
    destruct (match_at_Some _ _ _ E) as (m & rest & Hs & Hl & Hr & Hm).
    exists [], m, rest. cbn [app length]. rewrite <- Hs.
    repeat split; try assumption; lia.
  - destruct (match_at r (c :: s)) as [n|] eqn:E.
    + inversion H; subst a b. clear H.
      destruct (match_at_Some _ _ _ E) as (m & rest & Hs & Hl & Hr & Hm).
      exists [], m, rest. cbn [app length]. rewrite <- Hs.
      repeat split; try assumption; lia.
    + destruct (IH _ _ _ H) as (pre & m & post & -> & -> & -> & Hr & Hm & Hj).
      exists (c :: pre), m, post. cbn [app length].
      repeat split; try assumption; try lia.
      intros [|j] Hlt; [exact E |]. cbn [skipn]. apply Hj. lia.
Qed.

Lemma search_from_None (r : regex) :
  forall s pos, search_from r pos s = None <->
  forall j, j <= length s -> match_at r (skipn j s) = None.
Proof.
  induction s as [|c s IH]; intros pos; cbn [search_from].
  - destruct (match_at r []) as [n|] eqn:E; split; try easy.
    + intros H. specialize (H 0 (Nat.le_refl _)). cbn in H. congruence.
    + intros _ [|j] _; exact E.
  - destruct (match_at r (c :: s)) as [n|] eqn:E; split; try easy.
    + intros H. specialize (H 0 (Nat.le_0_l _)). cbn in H. congruence.
    + intros H [|j] Hj; [exact E |]. cbn [skipn].
      apply (proj1 (IH (S pos)) H). cbn in Hj. lia.
    + intros H. apply IH. intros j Hj. apply (H (S j)). cbn. lia.
Qed.

Lemma take_prefix (pre rest : str) : firstn (length pre) (pre ++ rest) = pre.
Proof. apply take_app_length. Qed.

Lemma drop_prefix2 (pre m post : str) :
  skipn (length pre + length m) (pre ++ m ++ post) = post.
Proof.
  rewrite app_assoc, <- length_app. apply drop_app_length.
Qed.

(** The substitution, when the pattern is found and when it is not. *)
Lemma sub_found (r : regex) (repl s : str) (a b : nat) :
  search r s = Some (a, b) ->
  exists pre m post,
    s = pre ++ m ++ post /\ a = length pre /\ b = length pre + length m
    /\ rmatch r (m ++ post) Some = Some post
    /\ matches r m
    /\ (forall j, j < a -> match_at r (skipn j s) = None)
    /\ re.sub r repl s = pre ++ repl ++ post.
Proof.
  intros H. unfold re.sub. rewrite H.
  destruct (search_from_Some _ _ _ _ _ H)
    as (pre & m & post & -> & -> & -> & Hr & Hm & Hj).
  exists pre, m, post. cbn [Nat.add].
  repeat split; try assumption.
  now rewrite take_prefix, drop_prefix2.
Qed.

Lemma sub_not_found (r : regex) (repl s : str) :
  search r s = None -> re.sub r repl s = s.
Proof. intros H. unfold re.sub. now rewrite H. Qed.

(** The first item [finditer] yields is what [search] finds. *)
Lemma search_finditer (r : regex) :
  forall s pos, search_from r pos s = hd_error (finditer_from r 0 pos s).
Proof.
  induction s as [|c s IH]; intros pos; cbn [search_from finditer_from].
  - destruct (match_at r []); reflexivity.
  - destruct (match_at r (c :: s)); [reflexivity | apply IH].
Qed.

Lemma finditer_from_bounds (r : regex) :
  forall s skip pos a b,
    In (a, b) (finditer_from r skip pos s) ->
    pos + skip <= a /\ a <= b /\ b <= pos + length s
    /\ match_at r (skipn (a - pos) s) = Some (b - a).
Proof.
  assert (Hhere : forall s pos n, match_at r s = Some n ->
            pos + 0 <= pos /\ pos <= pos + n /\ pos + n <= pos + length s
            /\ match_at r (skipn (pos - pos) s) = Some (pos + n - pos)).
  { intros s pos n E.
    destruct (match_at_Some _ _ _ E) as (m & rest & -> & <- & _ & _).
    replace (pos - pos) with 0 by lia.
    replace (pos + length m - pos) with (length m) by lia.
    repeat split; try assumption; len. }
  assert (Hshift : forall (c : codepoint) s pos a b skip,
            S pos + skip <= a /\ a <= b /\ b <= S pos + length s
            /\ match_at r (skipn (a - S pos) s) = Some (b - a) ->
            a <= b /\ b <= pos + length (c :: s)
            /\ match_at r (skipn (a - pos) (c :: s)) = Some (b - a)).
  { intros c s pos a b skip (H1 & H2 & H3 & H4).
    replace (a - pos) with (S (a - S pos)) by lia.
    repeat split; try assumption; len. }
  induction s as [|c s IH]; intros skip pos a b H;
    destruct skip as [|skip]; cbn [finditer_from] in H; try easy.
  - destruct (match_at r []) as [n|] eqn:E; [| easy].
    destruct H as [H | []]. inversion H; subst a b. now apply Hhere.
  - destruct (match_at r (c :: s)) as [n|] eqn:E.
    + destruct H as [H | H].
      * inversion H; subst a b. now apply Hhere.
      * apply IH in H. split; [lia |]. eapply Hshift, H.
    + apply IH in H. split; [lia |]. eapply Hshift, H.
  - apply IH in H. split; [lia |]. eapply Hshift, H.
Qed.

(** Every later item starts at or after the end of the first one. *)
Lemma finditer_later (r : regex) :
  forall s pos a b rest,
    finditer_from r 0 pos s = (a, b) :: rest ->
    pos <= a /\ a <= b /\
    forall a' b', In (a', b') rest ->
      b <= a' /\ a' <= b' /\ b' <= pos + length s
      /\ match_at r (skipn (a' - pos) s) = Some (b' - a').
Proof.
  induction s as [|c s IH]; intros pos a b rest H; cbn [finditer_from] in H.
  - destruct (match_at r []); inversion H; subst.
    split; [lia | split; [lia | easy]].
  - destruct (match_at r (c :: s)) as [n|] eqn:E.
    + inversion H; subst a b rest. clear H.
      split; [lia | split; [lia |]]. intros a' b' Hin.
      apply finditer_from_bounds in Hin.
      destruct Hin as (H1 & H2 & H3 & H4).
      replace (a' - pos) with (S (a' - S pos)) by lia.
      repeat split; try assumption; len.
    + destruct (IH _ _ _ _ H) as (Ha & Hb & Hl).
      split; [lia | split; [lia |]]. intros a' b' Hin.
      destruct (Hl _ _ Hin) as (H1 & H2 & H3 & H4).
      replace (a' - pos) with (S (a' - S pos)) by lia.
      repeat split; try assumption; len.
Qed.

(** ** The script *)

Lemma sub_Forall (P : codepoint -> Prop) (r : regex) (repl s : str) :
  Forall P repl -> Forall P s -> Forall P (re.sub r repl s).
Proof.
  intros Hr Hs. unfold re.sub. destruct (search r s) as [[a b]|]; [| assumption].
  repeat (apply Forall_app; split); try assumption.
  - now apply Forall_take.
  - now apply Forall_drop.
Qed.

Lemma encodable_LF : encodable LF.
Proof. unfold encodable. now vm_compute. Qed.

(** Whatever the script read, it can encode what it then writes. *)
Lemma write_text_fix_content (os : platform) (bs : list byte) (t : str) :
  read_text bs = Some t ->
  exists out, write_text os (fix_content t) = Some out.
Proof.
  unfold read_text. destruct (utf8_decode bs) as [t0|] eqn:E; [| discriminate].
  intros H. inversion H; subst t. clear H.
  apply utf8_encode_total, translate_newlines_Forall; [apply linesep_encodable |].
  apply sub_Forall.
  - eapply utf8_encode_encodable, new_function_encodes.
  - apply universal_newlines_Forall; [apply encodable_LF |].
    eapply utf8_decode_encodable, E.
Qed.

(** Lines 4 to 52 on a file that can be read, decoded and written. *)
Lemma patch_file_ok (os : platform) (st : state) (f : file) (t : str)
      (out : list byte) :
  fs st !! target = Some f ->
  f_readable f = true -> f_writable f = true ->
  read_text (f_bytes f) = Some t ->
  write_text os (fix_content t) = Some out ->
  patch_file os st =
  (Ok tt, State (<[target := File out true true]> (fs st)) (stdout st)
                (Some (fix_content t))).
Proof.
  intros Hf Hr Hw Ht Ho.
  unfold patch_file, bind, open_read, set_content, get_content, open_write, write.
  cbn [fs stdout content]. rewrite Hf, Hr, Ht. cbn [fs stdout content].
  rewrite Hf, Hw. cbn [fs stdout content f_bytes f_readable f_writable].
  fold (fix_content t). rewrite Ho. unfold set_file.
  cbn [fs stdout content app]. rewrite insert_insert_eq, ?Hr, ?Hw. reflexivity.
Qed.

Lemma fix_price_function_ok (os : platform) (st : state) (f : file) (t : str)
      (out : list byte) :
  fs st !! target = Some f ->
  f_readable f = true -> f_writable f = true ->
  read_text (f_bytes f) = Some t ->
  write_text os (fix_content t) = Some out ->
  fix_price_function os st =
  (Ok tt, State (<[target := File out true true]> (fs st))
                (stdout st ++ [message]) (Some (fix_content t))).
Proof.
  intros Hf Hr Hw Ht Ho. unfold fix_price_function, bind.
  now rewrite (patch_file_ok os st f t out).
Qed.

Lemma patch_file_failure (os : platform) (st : state) (e : exn)
      (c : option str) :
  failure st e c ->
  patch_file os st = (Raise e, State (fs st) (stdout st) c).
Proof.
  intros H.
  unfold patch_file, bind, open_read, set_content, get_content, open_write.
  destruct st as [fs0 out0 c0]. cbn [fs stdout content] in *.
  destruct H as [Hf | f Hf Hr | f Hf Hr Hd | f t Hf Hr Ht Hw];
    cbn [fs stdout content] in *; rewrite Hf; try rewrite Hr.
  - reflexivity.
  - reflexivity.
  - unfold read_text. now rewrite Hd.
  - rewrite Ht. cbn [fs stdout content]. rewrite Hf, Hw. reflexivity.
Qed.

(** ** The replacement text against the pattern *)

Lemma not_In_check (c : codepoint) (l : str) :
  existsb (N.eqb c) l = false -> ~ In c l.
Proof.
  intros E H.
  assert (E' : existsb (N.eqb c) l = true)
    by (apply existsb_exists; exists c; split; [assumption | apply N.eqb_refl]).
  congruence.
Qed.

Lemma Forall_forallb (P : codepoint -> bool) (l : str) :
  forallb P l = true -> Forall (fun c => P c = true) l.
Proof. intros H. apply List.Forall_forall. now apply forallb_forall. Qed.

(** The head of [new_function] the matcher stops on: up to the closing
    brace of the first template placeholder. *)
Lemma new_function_head :
  exists rest,
    new_function =
      (fn_header ++ text_of "marketId" ++ chr ")" :: text_of " " ++ chr "{" ::
       text_of "
    const cacheKey = `price_${marketId" ++ [chr "}"]) ++ rest
    /\ length rest = 1277
    /\ matched_text
         (fn_header ++ text_of "marketId" ++ chr ")" :: text_of " " ++ chr "{" ::
          text_of "
    const cacheKey = `price_${marketId" ++ [chr "}"]).
Proof.
  exists (skipn 85 new_function). split; [| split].
  - now vm_compute.
  - now vm_compute.
  - constructor.
    + now vm_compute.
    + now apply not_In_check.
    + apply Forall_forallb. now vm_compute.
    + now apply not_In_check.
Qed.

(** C8. The replacement text itself holds a region the pattern matches:
    searching [new_function] finds a match at its very start, which ends
    at the first closing brace and so is a proper prefix of the text, whose
    braces nest five deep. *)
Theorem new_function_contains_match :
  exists m rest,
    new_function = m ++ rest /\ rest <> [] /\
    matched_text m /\
    m = text_of "async function getRealMarketPrice(marketId) {
    const cacheKey = `price_${marketId}" /\
    rmatch pattern new_function Some = Some rest /\
    search pattern new_function = Some (0, length m) /\
    brace_depth 0 0 new_function = 5.
Proof.
  destruct new_function_head as (rest & E & Hl & Hm).
  eexists _, rest. split; [exact E |]. split; [| split; [exact Hm |]].
  - intros ->. discriminate.
  - split; [now vm_compute |]. split; [| split].
    + rewrite E. now apply pattern_matches_text.
    + now vm_compute.
    + now vm_compute.
Qed.

(** The pattern finds its match again in whatever it has patched. *)
Lemma search_after_patch (pre post : str) :
  search pattern (pre ++ new_function ++ post) <> None.
Proof.
  intros H. unfold search in H.
  assert (L : length pre <= length (pre ++ new_function ++ post)) by len.
  pose proof (proj1 (search_from_None pattern _ 0) H (length pre) L) as N.
  rewrite drop_app_length in N.
  destruct new_function_head as (rest & E & _ & Hm).
  rewrite E, <- app_assoc in N.
  rewrite (match_at_rmatch pattern _ _ (pattern_matches_text _ _ Hm)) in N.
  discriminate.
Qed.

(** A text the pattern matches somewhere is changed by the substitution:
    the region found is never [new_function] itself. *)
Lemma fix_content_changes (s : str) :
  search pattern s <> None -> fix_content s <> s.
Proof.
  intros H E. destruct (search pattern s) as [[a b]|] eqn:Hs; [| easy].
  destruct (sub_found pattern new_function s a b Hs)
    as (pre & m & post & -> & _ & _ & Hr & _ & _ & Hsub).
  unfold fix_content in E. rewrite Hsub in E.
  apply app_inv_head, app_inv_tail in E. subst m.
  destruct new_function_head as (rest & En & Hl & Hm).
  rewrite En, <- app_assoc, (pattern_matches_text _ _ Hm) in Hr.
  inversion Hr as [Hlen]. apply (f_equal (@length codepoint)) in Hlen.
  revert Hlen. len.
Qed.

(** C3. Running the substitution twice gives the same text as running it
    once exactly when the pattern has no match in the text: the replacement
    text holds a match of the pattern, so a second run on a patched text
    substitutes again. *)
Theorem twice_same_iff_no_match (s : str) :
  fix_content (fix_content s) = fix_content s <-> search pattern s = None.
Proof.
  split.
  - intros H. destruct (search pattern s) as [[a b]|] eqn:Hs; [| reflexivity].
    exfalso. apply (fix_content_changes (fix_content s)); [| exact H].
    destruct (sub_found pattern new_function s a b Hs)
      as (pre & m & post & _ & _ & _ & _ & _ & _ & Hsub).
    unfold fix_content. rewrite Hsub. apply search_after_patch.
  - intros H. unfold fix_content. now rewrite !(sub_not_found _ _ _ H).
Qed.

(** C3, the statement as written fails: a replacement text without any
    match of the pattern, on a text with two functions, is substituted for
    the first function by the first run and for the second by the second
    run; and with the replacement text of the script, a second run on a
    patched function patches the patch. *)
Lemma twice_differs_from_once :
  (search pattern (text_of "x") = None /\
   let s := text_of flat_function ++ text_of flat_function in
   re.sub pattern (text_of "x") s = text_of "x" ++ text_of flat_function /\
   re.sub pattern (text_of "x") (re.sub pattern (text_of "x") s) = text_of "xx" /\
   re.sub pattern (text_of "x") (re.sub pattern (text_of "x") s)
   <> re.sub pattern (text_of "x") s)
  /\
  (fix_content (text_of flat_function) = new_function /\
   fix_content (fix_content (text_of flat_function))
   = new_function ++ skipn 85 new_function /\
   fix_content (fix_content (text_of flat_function))
   <> fix_content (text_of flat_function)).
Proof.
  repeat split; try (now vm_compute);
    intros H; apply (f_equal (@length codepoint)) in H;
    vm_compute in H; discriminate.
Qed.

(** ** Nested braces *)

Lemma matches_Lit (h : str) (r : regex) (m : str) :
  matches r m -> matches (Lit h r) (h ++ m).
Proof.
  intros H. induction h as [|c h IH]; cbn [Lit app]; [assumption |].
  apply (matches_seq _ _ [c] (h ++ m)); [| assumption].
  constructor. apply N.eqb_refl.
Qed.

Lemma matches_Star_One (cs : charset) (m : str) :
  forallb (charset_mem cs) m = true -> matches (Star (One cs)) m.
Proof.
  induction m as [|c m IH]; cbn [forallb]; intros H; [constructor |].
  apply andb_true_iff in H. destruct H as [Hc Hm].
  apply (matches_star_cons _ [c] m); [now constructor | now apply IH].
Qed.

Lemma matches_split (r1 r2 : regex) (m1 m2 m : str) :
  m = m1 ++ m2 -> matches r1 m1 -> matches r2 m2 -> matches (r1 +> r2) m.
Proof. intros ->. apply matches_seq. Qed.

Lemma matches_once (r : regex) (m : str) : matches r m -> matches (Star r) m.
Proof.
  intros H. rewrite <- (app_nil_r m). apply matches_star_cons; [assumption | constructor].
Qed.

(** C4. On a function whose body holds one nested block, the pattern as
    an expression does denote the whole function, but the matcher stops at
    the closing brace of the nested block: the match covers 52 of the 56
    characters, and the substitution leaves the end of the old body behind
    the new function. *)
Theorem nested_function_cut_short :
  let s := text_of nested_function in
  matches pattern s /\
  length s = 56 /\
  search pattern s = Some (0, 52) /\
  slice 0 52 s = text_of "async function getRealMarketPrice(id) { if (a) { b }" /\
  fix_content s = new_function ++ text_of " c }".
Proof.
  cbv zeta. split; [| repeat split; now vm_compute].
  unfold pattern, Plus, nested_block.
  change (text_of nested_function)
    with (text_of "async function getRealMarketPrice"
          ++ text_of "(id) { if (a) { b } c }").
  apply matches_Lit.
  apply (matches_split _ _ (text_of "(") (text_of "id) { if (a) { b } c }"));
    [now vm_compute | now constructor |].
  apply (matches_split _ _ (text_of "id") (text_of ") { if (a) { b } c }"));
    [now vm_compute | |].
  { apply (matches_split _ _ (text_of "i") (text_of "d"));
      [now vm_compute | now constructor | now apply matches_Star_One]. }
  apply (matches_split _ _ (text_of ")") (text_of " { if (a) { b } c }"));
    [now vm_compute | now constructor |].
  apply (matches_split _ _ (text_of " ") (text_of "{ if (a) { b } c }"));
    [now vm_compute | now apply matches_Star_One |].
  apply (matches_split _ _ (text_of "{") (text_of " if (a) { b } c }"));
    [now vm_compute | now constructor |].
  apply (matches_split _ _ (text_of " if (a) ") (text_of "{ b } c }"));
    [now vm_compute | now apply matches_Star_One |].
  apply (matches_split _ _ (text_of "{ b } c ") (text_of "}"));
    [now vm_compute | | now constructor].
  apply matches_once.
  apply (matches_split _ _ (text_of "{") (text_of " b } c "));
    [now vm_compute | now constructor |].
  apply (matches_split _ _ (text_of " b ") (text_of "} c "));
    [now vm_compute | now apply matches_Star_One |].
  apply (matches_split _ _ (text_of "}") (text_of " c "));
    [now vm_compute | now constructor | now apply matches_Star_One].
Qed.

(** The same for every function with a nested block: the match ends at
    the closing brace of the block, whatever the body goes on with. *)
Lemma nested_block_cut_short (args ws b1 b2 rest : str) :
  args <> [] -> ~ In (chr ")") args ->
  Forall (fun c => is_whitespace c = true) ws ->
  ~ In (chr "}") b1 -> ~ In (chr "}") b2 ->
  rmatch pattern
    (fn_header ++ args ++ chr ")" :: ws ++ chr "{" ::
     b1 ++ chr "{" :: b2 ++ chr "}" :: rest) Some
  = Some rest.
Proof.
  intros Ha Hp Hw H1 H2.
  assert (M : matched_text
    (fn_header ++ args ++ chr ")" :: ws ++ chr "{" ::
     (b1 ++ chr "{" :: b2) ++ [chr "}"])).
  { constructor; try assumption. intros H. apply in_app_or in H.
    destruct H as [H | [H | H]]; [now apply H1 | discriminate | now apply H2]. }
  rewrite <- (pattern_matches_text _ rest M). f_equal. now norm_app.
Qed.

(** ** Termination of the substitution *)

(** C10. The substitution is defined on every text: it returns the text
    itself or the text with one region replaced, and the repetitions of the
    matcher never run out of rounds, since any larger number of rounds
    gives the same result. *)
Theorem fix_content_total (s : str) :
  (exists out, fix_content s = out /\
     (out = s \/
      exists pre m post, s = pre ++ m ++ post /\ matched_text m
                         /\ out = pre ++ new_function ++ post))
  /\ (forall r k n, length s <= n ->
        star_loop (rmatch r) n s k = rmatch (Star r) s k).
Proof.
  split.
  - exists (fix_content s). split; [reflexivity |].
    destruct (search pattern s) as [[a b]|] eqn:Hs.
    + right. destruct (sub_found pattern new_function s a b Hs)
        as (pre & m & post & -> & _ & _ & Hr & _ & _ & Hsub).
      exists pre, m, post. repeat split; [| exact Hsub].
      apply pattern_match_spec in Hr. destruct Hr as (m' & E & Hm').
      apply app_inv_tail in E. now subst m'.
    + left. now apply sub_not_found.
  - intros r k n Hn. rewrite rmatch_Star. now apply star_loop_fuel.
Qed.

(** ** Runs of the script *)

Lemma no_CR_byte_check (bs : list byte) :
  forallb (fun b => negb (Byte.eqb b x0d)) bs = true -> ~ In x0d bs.
Proof.
  intros H Hin. rewrite forallb_forall in H. specialize (H _ Hin).
  vm_compute in H. discriminate.
Qed.

(** A file without carriage returns is read as the text it encodes. *)
Lemma read_text_no_CR (bs : list byte) (t : str) :
  ~ In x0d bs -> utf8_decode bs = Some t ->
  read_text bs = Some t /\ utf8_encode t = Some bs.
Proof.
  intros Hcr Hd. pose proof (utf8_roundtrip _ _ Hd) as He.
  split; [| exact He]. unfold read_text. rewrite Hd. cbn. f_equal.
  apply universal_newlines_id. intros H. apply Hcr.
  now apply (utf8_encode_CR _ _ He).
Qed.

Lemma file_eta (f : file) :
  f_readable f = true -> f_writable f = true -> File (f_bytes f) true true = f.
Proof. destruct f; cbn; now intros -> ->. Qed.

(** C2. On a platform whose line separator is the line feed, for a file
    that holds no carriage return and whose text the pattern does not
    match: no error is raised, the substitution returns the text as it is,
    the file system is left as it was, and the message is printed. *)
Theorem no_match_file_unchanged (st : state) (f : file) (t : str) :
  fs st !! target = Some f ->
  f_readable f = true -> f_writable f = true ->
  ~ In x0d (f_bytes f) ->
  utf8_decode (f_bytes f) = Some t ->
  search pattern t = None ->
  fix_content t = t /\
  fix_price_function Posix st =
  (Ok tt, State (fs st) (stdout st ++ [message]) (Some t)).
Proof.
  intros Hf Hr Hw Hcr Hd Hs.
  destruct (read_text_no_CR _ _ Hcr Hd) as [Ht He].
  assert (E : fix_content t = t) by now apply sub_not_found.
  split; [exact E |].
  rewrite (fix_price_function_ok Posix st f t (f_bytes f) Hf Hr Hw Ht).
  - rewrite E, file_eta by assumption. now rewrite insert_id.
  - unfold write_text. now rewrite translate_newlines_posix, E.
Qed.

Lemma no_match_file_unchanged_witness :
  (fs (only plain_file) !! target = Some plain_file /\
   f_readable plain_file = true /\ f_writable plain_file = true /\
   ~ In x0d (f_bytes plain_file) /\
   utf8_decode (f_bytes plain_file) = Some (text_of plain_text) /\
   search pattern (text_of plain_text) = None) /\
  (fix_content (text_of plain_text) = text_of plain_text /\
   fix_price_function Posix (only plain_file) =
   (Ok tt, State (fs (only plain_file)) (stdout (only plain_file) ++ [message])
                 (Some (text_of plain_text)))).
Proof.
  assert (H1 : fs (only plain_file) !! target = Some plain_file)
    by (vm_compute; reflexivity).
  assert (H2 : f_readable plain_file = true) by reflexivity.
  assert (H3 : f_writable plain_file = true) by reflexivity.
  assert (H4 : ~ In x0d (f_bytes plain_file))
    by (apply no_CR_byte_check; vm_compute; reflexivity).
  assert (H5 : utf8_decode (f_bytes plain_file) = Some (text_of plain_text))
    by (vm_compute; reflexivity).
  assert (H6 : search pattern (text_of plain_text) = None)
    by (vm_compute; reflexivity).
  split; [repeat split; assumption |].
  exact (no_match_file_unchanged _ _ _ H1 H2 H3 H4 H5 H6).
Defined.

(** C2, the statement as written fails: a file with Windows line ends and
    no match, patched on a platform whose line separator is the line feed,
    is read and written without error, but the bytes written back are not
    the bytes read: each CR LF has become LF. *)
Lemma crlf_file_not_written_verbatim :
  exists t st',
    read_text (f_bytes crlf_plain_file) = Some t /\
    search pattern t = None /\ fix_content t = t /\
    fix_price_function Posix (only crlf_plain_file) = (Ok tt, st') /\
    fs st' !! target = Some (File (bytes_of "let a = 1;" ++ [x0a]) true true) /\
    f_bytes crlf_plain_file = bytes_of "let a = 1;" ++ [x0d; x0a] /\
    fs st' !! target <> Some crlf_plain_file.
Proof.
  eexists _, _. split; [now vm_compute |]. split; [now vm_compute |].
  split; [now vm_compute |]. split.
  - apply (fix_price_function_ok Posix _ crlf_plain_file); reflexivity.
  - cbn [fs]. rewrite lookup_insert_eq.
    split; [now vm_compute |]. split; [reflexivity |]. intros H. discriminate.
Qed.

(** Where the line separator is CR LF, it is the file with plain line
    feeds that comes back changed: each LF is written as CR LF. *)
Example lf_file_on_windows :
  exists st',
    search pattern (text_of plain_text) = None /\
    fix_price_function Windows (only plain_file) = (Ok tt, st') /\
    f_bytes plain_file = bytes_of "log('❌ rien à corriger');" ++ [x0a] /\
    fs st' !! target
    = Some (File (bytes_of "log('❌ rien à corriger');" ++ [x0d; x0a]) true true).
Proof.
  eexists. split; [now vm_compute |]. split.
  - apply (fix_price_function_ok Windows _ plain_file); reflexivity.
  - cbn [fs]. rewrite lookup_insert_eq. split; now vm_compute.
Qed.

(** What a run does, byte for byte, on a file without carriage returns
    in which the pattern is found. *)
Lemma patched_file_posix (st : state) (f : file) (t : str) (a b : nat) :
  fs st !! target = Some f ->
  f_readable f = true -> f_writable f = true ->
  ~ In x0d (f_bytes f) ->
  utf8_decode (f_bytes f) = Some t ->
  search pattern t = Some (a, b) ->
  exists pre m post bpre bm bpost,
    t = pre ++ m ++ post /\ a = length pre /\ b = length pre + length m /\
    matched_text m /\
    (forall j, j < length pre -> match_at pattern (skipn j t) = None) /\
    utf8_encode pre = Some bpre /\ utf8_encode m = Some bm /\
    utf8_encode post = Some bpost /\
    f_bytes f = bpre ++ bm ++ bpost /\
    fix_price_function Posix st =
    (Ok tt,
     State (<[target := File (bpre ++ bytes_of new_function_literal ++ bpost)
                             true true]> (fs st))
           (stdout st ++ [message])
           (Some (pre ++ new_function ++ post))).
Proof.
  intros Hf Hr Hw Hcr Hd Hs.
  destruct (read_text_no_CR _ _ Hcr Hd) as [Ht He].
  destruct (sub_found pattern new_function t a b Hs)
    as (pre & m & post & -> & -> & -> & Hm & _ & Hleft & Hsub).
  apply pattern_match_spec in Hm. destruct Hm as (m' & E & Hm).
  apply app_inv_tail in E. subst m'.
  destruct (utf8_encode_app_inv _ _ _ He) as (bpre & bmp & Hpre & Hmp & Eb).
  destruct (utf8_encode_app_inv _ _ _ Hmp) as (bm & bpost & Hbm & Hpost & ->).
  exists pre, m, post, bpre, bm, bpost.
  repeat split; try assumption.
  rewrite (fix_price_function_ok Posix st f (pre ++ m ++ post)
             (bpre ++ bytes_of new_function_literal ++ bpost) Hf Hr Hw Ht).
  - unfold fix_content. now rewrite Hsub.
  - unfold write_text, fix_content.
    rewrite translate_newlines_posix, Hsub.
    apply utf8_encode_app; [assumption |].
    apply utf8_encode_app; [apply new_function_encodes | assumption].
Qed.

Lemma finditer_one (r : regex) (s : str) :
  0 < length (finditer r s) -> exists a b, search r s = Some (a, b).
Proof.
  unfold finditer, search. rewrite search_finditer.
  destruct (finditer_from r 0 0 s) as [|[a b] l]; cbn; [lia | eauto].
Qed.

(** C1. On a platform whose line separator is the line feed, for a file
    that holds no carriage return and whose text holds exactly one
    occurrence of the pattern: the file is the bytes before the occurrence,
    the bytes of the occurrence and the bytes after it, and one run writes
    back the bytes before, the bytes of the replacement text, and the bytes
    after, whatever characters, ASCII or not, the text outside holds. *)
Theorem one_occurrence_replaced (st : state) (f : file) (t : str) :
  fs st !! target = Some f ->
  f_readable f = true -> f_writable f = true ->
  ~ In x0d (f_bytes f) ->
  utf8_decode (f_bytes f) = Some t ->
  length (finditer pattern t) = 1 ->
  exists pre m post bpre bm bpost,
    t = pre ++ m ++ post /\ matched_text m /\
    (forall j, j < length pre -> match_at pattern (skipn j t) = None) /\
    utf8_encode pre = Some bpre /\ utf8_encode m = Some bm /\
    utf8_encode post = Some bpost /\
    f_bytes f = bpre ++ bm ++ bpost /\
    fix_price_function Posix st =
    (Ok tt,
     State (<[target := File (bpre ++ bytes_of new_function_literal ++ bpost)
                             true true]> (fs st))
           (stdout st ++ [message])
           (Some (pre ++ new_function ++ post))).
Proof.
  intros Hf Hr Hw Hcr Hd Hone.
  destruct (finditer_one pattern t) as (a & b & Hs); [lia |].
  destruct (patched_file_posix st f t a b Hf Hr Hw Hcr Hd Hs)
    as (pre & m & post & bpre & bm & bpost & H).
  exists pre, m, post, bpre, bm, bpost. tauto.
Qed.

Lemma one_occurrence_replaced_witness :
  (fs (only emoji_file) !! target = Some emoji_file /\
   f_readable emoji_file = true /\ f_writable emoji_file = true /\
   ~ In x0d (f_bytes emoji_file) /\
   utf8_decode (f_bytes emoji_file) = Some (text_of emoji_text) /\
   length (finditer pattern (text_of emoji_text)) = 1) /\
  exists pre m post bpre bm bpost,
    text_of emoji_text = pre ++ m ++ post /\ matched_text m /\
    (forall j, j < length pre ->
               match_at pattern (skipn j (text_of emoji_text)) = None) /\
    utf8_encode pre = Some bpre /\ utf8_encode m = Some bm /\
    utf8_encode post = Some bpost /\
    f_bytes emoji_file = bpre ++ bm ++ bpost /\
    fix_price_function Posix (only emoji_file) =
    (Ok tt,
     State (<[target := File (bpre ++ bytes_of new_function_literal ++ bpost)
                             true true]> (fs (only emoji_file)))
           (stdout (only emoji_file) ++ [message])
           (Some (pre ++ new_function ++ post))).
Proof.
  assert (H1 : fs (only emoji_file) !! target = Some emoji_file)
    by (vm_compute; reflexivity).
  assert (H2 : f_readable emoji_file = true) by reflexivity.
  assert (H3 : f_writable emoji_file = true) by reflexivity.
  assert (H4 : ~ In x0d (f_bytes emoji_file))
    by (apply no_CR_byte_check; vm_compute; reflexivity).
  assert (H5 : utf8_decode (f_bytes emoji_file) = Some (text_of emoji_text))
    by (vm_compute; reflexivity).
  assert (H6 : length (finditer pattern (text_of emoji_text)) = 1)
    by (vm_compute; reflexivity).
  split; [repeat split; assumption |].
  exact (one_occurrence_replaced _ _ _ H1 H2 H3 H4 H5 H6).
Defined.

(** The bytes that run leaves in the file. *)
Example emoji_file_patched :
  exists st',
    fix_price_function Posix (only emoji_file) = (Ok tt, st') /\
    fs st' !! target =
    Some (File (bytes_of "log('❌ échec');
" ++ bytes_of new_function_literal ++ bytes_of "
log('✅ terminé');
") true true).
Proof.
  eexists. split.
  - apply (fix_price_function_ok Posix _ emoji_file); reflexivity.
  - cbn [fs]. rewrite lookup_insert_eq. now vm_compute.
Qed.

(** C1, the statement as written fails: a file with Windows line ends
    around its one occurrence, patched on a platform whose line separator
    is the line feed, comes back with LF where it had CR LF, so the bytes
    outside the replaced region have changed: the file written is not the
    file read with some region replaced by the bytes of the replacement. *)
Lemma crlf_file_changed_outside_region :
  exists t st' out,
    read_text (f_bytes crlf_file) = Some t /\
    length (finditer pattern t) = 1 /\
    fix_price_function Posix (only crlf_file) = (Ok tt, st') /\
    fs st' !! target = Some (File out true true) /\
    out = bytes_of "// bot" ++ [x0a] ++ bytes_of new_function_literal ++ [x0a] /\
    f_bytes crlf_file
    = bytes_of "// bot" ++ [x0d; x0a] ++ bytes_of flat_function ++ [x0d; x0a] /\
    ~ exists bpre bm bpost,
        f_bytes crlf_file = bpre ++ bm ++ bpost /\
        out = bpre ++ bytes_of new_function_literal ++ bpost.
Proof.
  eexists _, _, _. split; [now vm_compute |]. split; [now vm_compute |].
  split; [apply (fix_price_function_ok Posix _ crlf_file); reflexivity |].
  cbn [fs]. rewrite lookup_insert_eq.
  split; [reflexivity |]. split; [now vm_compute |]. split; [reflexivity |].
  intros (bpre & bm & bpost & H1 & H2).
  assert (K : forall k, k < 7 -> length bpre = k ->
                nth k (bpre ++ bytes_of new_function_literal ++ bpost) x00 = x61).
  { intros k _ <-. rewrite app_nth2, Nat.sub_diag by lia. reflexivity. }
  assert (P : forall k, length bpre <= k \/
                nth k (bpre ++ bm ++ bpost) x00
                = nth k (bpre ++ bytes_of new_function_literal ++ bpost) x00).
  { intros k. destruct (Nat.le_gt_cases (length bpre) k); [now left | right].
    now rewrite !app_nth1 by assumption. }
  rewrite <- H1, <- H2 in P. rewrite <- H2 in K.
  destruct (P 6) as [L | E]; [| vm_compute in E; discriminate].
  assert (C : exists k, k < 7 /\ length bpre = k) by (exists (length bpre); lia).
  destruct C as (k & Hk & Hl). specialize (K k Hk Hl).
  do 7 (destruct k as [|k]; [vm_compute in K; discriminate |]). lia.
Qed.

(** ** Several occurrences *)

Lemma matched_text_nonempty (m : str) : matched_text m -> 0 < length m.
Proof. intros [args ws body _ _ _ _]. len. Qed.

Lemma slice_after (pre mid post : str) (x y : nat) :
  length pre + length mid <= x ->
  slice x y (pre ++ mid ++ post)
  = slice (x - length pre - length mid) (y - length pre - length mid) post.
Proof.
  intros H. unfold slice.
  rewrite drop_app_ge by lia. rewrite drop_app_ge by lia.
  f_equal. lia.
Qed.

(** C5. When the text holds two occurrences or more, the substitution
    replaces the first one, which is the leftmost match, and only that one:
    the text before it and the text after it are kept, and every later
    occurrence stands unchanged in the result, moved by the difference of
    lengths between the replacement text and the region replaced. *)
Theorem only_first_occurrence_replaced
        (s : str) (a b : nat) (o : nat * nat) (others : list (nat * nat)) :
  finditer pattern s = (a, b) :: o :: others ->
  (forall j, j < a -> match_at pattern (skipn j s) = None) /\
  match_at pattern (skipn a s) = Some (b - a) /\
  a < b <= length s /\
  fix_content s = firstn a s ++ new_function ++ skipn b s /\
  Forall (fun o' =>
            b <= fst o' <= snd o' /\ snd o' <= length s /\
            match_at pattern (skipn (fst o') s) = Some (snd o' - fst o') /\
            slice (fst o' - (b - a) + length new_function)
                  (snd o' - (b - a) + length new_function) (fix_content s)
            = slice (fst o') (snd o') s)
         (o :: others).
Proof.
  intros H.
  assert (Hs : search pattern s = Some (a, b)).
  { unfold search. rewrite search_finditer. fold (finditer pattern s).
    now rewrite H. }
  destruct (finditer_later pattern s 0 a b _ H) as (_ & _ & Hlater).
  assert (Hfix : fix_content s = firstn a s ++ new_function ++ skipn b s).
  { unfold fix_content, re.sub. now rewrite Hs. }
  destruct (sub_found pattern new_function s a b Hs)
    as (pre & m & post & -> & -> & -> & Hm & _ & Hleft & Hsub).
  pose proof Hm as Hm'.
  apply pattern_match_spec in Hm'. destruct Hm' as (m' & E & Hm').
  apply app_inv_tail in E. subst m'.
  pose proof (matched_text_nonempty _ Hm') as Hpos.
  split; [exact Hleft |]. split; [| split; [len | split; [exact Hfix |]]].
  - rewrite drop_app_length.
    replace (length pre + length m - length pre) with (length m) by lia.
    now apply match_at_rmatch.
  - apply List.Forall_forall. intros [a' b'] Hin. cbn [fst snd].
    destruct (Hlater a' b' Hin) as (H1 & H2 & H3 & H4).
    rewrite Nat.sub_0_r in H4.
    repeat split; try assumption.
    unfold fix_content. rewrite Hsub.
    rewrite !slice_after by lia. f_equal; lia.
Qed.

Lemma only_first_occurrence_replaced_witness :
  finditer pattern (text_of three_functions) = [(0, 53); (54, 106); (107, 146)]
  /\
  ((forall j, j < 0 -> match_at pattern (skipn j (text_of three_functions)) = None) /\
   match_at pattern (skipn 0 (text_of three_functions)) = Some (53 - 0) /\
   0 < 53 <= length (text_of three_functions) /\
   fix_content (text_of three_functions)
   = firstn 0 (text_of three_functions) ++ new_function
     ++ skipn 53 (text_of three_functions) /\
   Forall (fun o' =>
             53 <= fst o' <= snd o' /\ snd o' <= length (text_of three_functions) /\
             match_at pattern (skipn (fst o') (text_of three_functions))
             = Some (snd o' - fst o') /\
             slice (fst o' - (53 - 0) + length new_function)
                   (snd o' - (53 - 0) + length new_function)
                   (fix_content (text_of three_functions))
             = slice (fst o') (snd o') (text_of three_functions))
          [(54, 106); (107, 146)]).
Proof.
  assert (H : finditer pattern (text_of three_functions)
              = [(0, 53); (54, 106); (107, 146)]) by (vm_compute; reflexivity).
  split; [exact H |].
  exact (only_first_occurrence_replaced _ _ _ _ _ H).
Defined.

(** ** The message and the errors *)

(** Lines 4 to 52 print nothing. *)
Lemma patch_file_stdout (os : platform) (st st1 : state) (r : result unit) :
  patch_file os st = (r, st1) -> stdout st1 = stdout st.
Proof.
  unfold patch_file, bind, open_read, set_content, get_content, open_write,
    write, set_file, raise.
  destruct st as [fs0 out0 c0]. cbn [fs stdout content].
  destruct (fs0 !! target) as [f|] eqn:Hf; [| now inversion 1].
  destruct (f_readable f); [| now inversion 1].
  destruct (read_text (f_bytes f)) as [t|]; [| now inversion 1].
  cbn [fs stdout content]. rewrite Hf.
  destruct (f_writable f); [| now inversion 1].
  cbn [fs stdout content f_bytes f_readable f_writable].
  destruct (write_text os _); now inversion 1.
Qed.

(** C6. Whenever the file can be read, decoded and written, whatever its
    text and whether the pattern is found in it or not, lines 4 to 52 end
    without error having written the file and printed nothing, and the
    script then ends without error having printed the message, once, on
    top of what was printed before. *)
Theorem message_printed_after_write
        (os : platform) (st : state) (f : file) (t : str) :
  fs st !! target = Some f ->
  f_readable f = true -> f_writable f = true ->
  read_text (f_bytes f) = Some t ->
  exists (out : list byte) (st1 : state),
    write_text os (fix_content t) = Some out /\
    patch_file os st = (Ok tt, st1) /\
    fs st1 = <[target := File out true true]> (fs st) /\
    stdout st1 = stdout st /\
    fix_price_function os st =
    (Ok tt, State (fs st1) (stdout st ++ [message]) (content st1)).
Proof.
  intros Hf Hr Hw Ht.
  destruct (write_text_fix_content os _ _ Ht) as (out & Ho).
  pose proof (patch_file_ok os st f t out Hf Hr Hw Ht Ho) as Hp.
  eexists out, _. split; [exact Ho |]. split; [exact Hp |].
  split; [reflexivity |]. split; [reflexivity |].
  unfold fix_price_function, bind. now rewrite Hp.
Qed.

Lemma message_printed_after_write_witness :
  (fs (only plain_file) !! target = Some plain_file /\
   f_readable plain_file = true /\ f_writable plain_file = true /\
   read_text (f_bytes plain_file) = Some (text_of plain_text)) /\
  search pattern (text_of plain_text) = None /\
  exists (out : list byte) (st1 : state),
    write_text Posix (fix_content (text_of plain_text)) = Some out /\
    patch_file Posix (only plain_file) = (Ok tt, st1) /\
    fs st1 = <[target := File out true true]> (fs (only plain_file)) /\
    stdout st1 = stdout (only plain_file) /\
    fix_price_function Posix (only plain_file) =
    (Ok tt, State (fs st1) (stdout (only plain_file) ++ [message]) (content st1)).
Proof.
  assert (H1 : fs (only plain_file) !! target = Some plain_file)
    by (vm_compute; reflexivity).
  assert (H2 : f_readable plain_file = true) by reflexivity.
  assert (H3 : f_writable plain_file = true) by reflexivity.
  assert (H4 : read_text (f_bytes plain_file) = Some (text_of plain_text))
    by (vm_compute; reflexivity).
  split; [repeat split; assumption |].
  split; [vm_compute; reflexivity |].
  exact (message_printed_after_write Posix _ _ _ H1 H2 H3 H4).
Defined.

(** When the pattern is found the same message is printed. *)
Example message_printed_when_patched :
  exists st', fix_price_function Posix (only emoji_file) = (Ok tt, st')
              /\ stdout st' = [message].
Proof.
  eexists. split.
  - apply (fix_price_function_ok Posix _ emoji_file); reflexivity.
  - reflexivity.
Qed.

Lemma fix_price_function_failure (os : platform) (st : state) (e : exn)
      (c : option str) :
  failure st e c ->
  fix_price_function os st = (Raise e, State (fs st) (stdout st) c).
Proof.
  intros H. unfold fix_price_function, bind.
  now rewrite (patch_file_failure os st e c H).
Qed.

(** C7. Every failure on the file stops the script with the exception
    raised, the file system and the output as they were.  When the file is
    missing, unreadable or not valid UTF-8, the variable [content] is also
    as it was: neither the substitution nor the write has run.  When the
    file cannot be opened for writing, the read and the substitution have
    run and [content] holds the substituted text, which is then lost. *)
Theorem errors_propagate (os : platform) (st : state) (e : exn)
        (c : option str) :
  failure st e c ->
  exists st',
    fix_price_function os st = (Raise e, st') /\
    fs st' = fs st /\ stdout st' = stdout st /\ content st' = c.
Proof.
  intros H. eexists. split; [exact (fix_price_function_failure os st e c H) |].
  repeat split.
Qed.

Lemma errors_propagate_witness :
  failure (only read_only_file) PermissionError
          (Some (fix_content (text_of flat_function)))
  /\
  exists st',
    fix_price_function Posix (only read_only_file) = (Raise PermissionError, st') /\
    fs st' = fs (only read_only_file) /\
    stdout st' = stdout (only read_only_file) /\
    content st' = Some (fix_content (text_of flat_function)).
Proof.
  assert (H : failure (only read_only_file) PermissionError
                      (Some (fix_content (text_of flat_function))))
    by (apply (failure_unwritable _ read_only_file); vm_compute; reflexivity).
  split; [exact H |].
  exact (errors_propagate Posix _ _ _ H).
Defined.

(** The three failures of the read, on small directories. *)
Example read_failures :
  fix_price_function Posix (State ∅ [] None)
  = (Raise FileNotFoundError, State ∅ [] None)
  /\ fix_price_function Posix (only (File (bytes_of flat_function) false true))
     = (Raise PermissionError, only (File (bytes_of flat_function) false true))
  /\ fix_price_function Posix (only (File [xe9] true true))
     = (Raise UnicodeDecodeError, only (File [xe9] true true)).
Proof.
  split; [| split]; reflexivity.
Qed.

(** C7, the statement as written fails: on a file that can be read but
    not written, the script stops on the open for writing, after line 48
    has run; [content], unbound at the start, holds the substituted text. *)
Lemma substitution_done_before_write_fails :
  exists st',
    fix_price_function Posix (only read_only_file) = (Raise PermissionError, st')
    /\ content (only read_only_file) = None
    /\ content st' = Some new_function
    /\ Some new_function <> Some (text_of flat_function)
    /\ fs st' = fs (only read_only_file)
    /\ stdout st' = [].
Proof.
  eexists. split.
  - apply fix_price_function_failure, (failure_unwritable _ read_only_file);
      reflexivity.
  - cbn [fs stdout content]. repeat split.
    intros H. apply (f_equal (option_map (@length codepoint))) in H.
    vm_compute in H. discriminate.
Qed.

(** ** Determinism *)

(** A run that ends without error has read, decoded and written the file. *)
Lemma fix_price_function_Ok_inv (os : platform) (st st' : state) :
  fix_price_function os st = (Ok tt, st') ->
  exists f t out,
    fs st !! target = Some f /\ f_readable f = true /\ f_writable f = true /\
    read_text (f_bytes f) = Some t /\
    write_text os (fix_content t) = Some out /\
    st' = State (<[target := File out true true]> (fs st))
                (stdout st ++ [message]) (Some (fix_content t)).
Proof.
  intros H.
  assert (F : forall e c, failure st e c -> False).
  { intros e c Hf. rewrite (fix_price_function_failure os st e c Hf) in H.
    discriminate. }
  destruct (fs st !! target) as [f|] eqn:Hf;
    [| exfalso; eapply F; now apply failure_missing].
  destruct (f_readable f) eqn:Hr;
    [| exfalso; eapply F; eapply failure_unreadable; eassumption].
  destruct (utf8_decode (f_bytes f)) as [t|] eqn:Hd;
    [| exfalso; eapply F; eapply failure_undecodable; eassumption].
  assert (Ht : read_text (f_bytes f) = Some (universal_newlines t))
    by (unfold read_text; now rewrite Hd).
  destruct (f_writable f) eqn:Hw;
    [| exfalso; eapply F; eapply failure_unwritable; eassumption].
  destruct (write_text_fix_content os _ _ Ht) as (out & Ho).
  rewrite (fix_price_function_ok os st f _ out Hf Hr Hw Ht Ho) in H.
  inversion H. exists f, (universal_newlines t), out. repeat split; assumption.
Qed.

(** C9. Two runs on the same platform that find target files with equal
    contents and end without error leave the same target file, have
    printed the same message, and hold the same text in [content],
    whatever else differs between the two directories and sessions. *)
Theorem same_contents_same_outcome
        (os : platform) (st1 st2 st1' st2' : state) (f1 f2 : file) :
  fs st1 !! target = Some f1 ->
  fs st2 !! target = Some f2 ->
  f_bytes f1 = f_bytes f2 ->
  fix_price_function os st1 = (Ok tt, st1') ->
  fix_price_function os st2 = (Ok tt, st2') ->
  (exists out, fs st1' !! target = Some (File out true true)
               /\ fs st2' !! target = Some (File out true true)) /\
  (exists printed, stdout st1' = stdout st1 ++ printed
                   /\ stdout st2' = stdout st2 ++ printed
                   /\ printed = [message]) /\
  content st1' = content st2'.
Proof.
  intros H1 H2 Hb R1 R2.
  destruct (fix_price_function_Ok_inv _ _ _ R1)
    as (g1 & t1 & out1 & G1 & _ & _ & T1 & O1 & ->).
  destruct (fix_price_function_Ok_inv _ _ _ R2)
    as (g2 & t2 & out2 & G2 & _ & _ & T2 & O2 & ->).
  rewrite H1 in G1. inversion G1; subst g1.
  rewrite H2 in G2. inversion G2; subst g2.
  rewrite Hb, T2 in T1. inversion T1; subst t1.
  rewrite O2 in O1. inversion O1; subst out1.
  cbn [fs stdout content]. rewrite !lookup_insert_eq.
  split; [now exists out2 |]. split; [now exists [message] | reflexivity].
Qed.

Lemma same_contents_same_outcome_witness :
  (fs (only emoji_file) !! target = Some emoji_file /\
   fs (busy emoji_file) !! target = Some emoji_file /\
   f_bytes emoji_file = f_bytes emoji_file /\
   fix_price_function Posix (only emoji_file)
   = (Ok tt, emoji_patched (only emoji_file)) /\
   fix_price_function Posix (busy emoji_file)
   = (Ok tt, emoji_patched (busy emoji_file))) /\
  ((exists out,
      fs (emoji_patched (only emoji_file)) !! target
      = Some (File out true true) /\
      fs (emoji_patched (busy emoji_file)) !! target
      = Some (File out true true)) /\
   (exists printed,
      stdout (emoji_patched (only emoji_file))
      = stdout (only emoji_file) ++ printed /\
      stdout (emoji_patched (busy emoji_file))
      = stdout (busy emoji_file) ++ printed /\
      printed = [message]) /\
   content (emoji_patched (only emoji_file))
   = content (emoji_patched (busy emoji_file))).
Proof.
  assert (H1 : fs (only emoji_file) !! target = Some emoji_file)
    by (vm_compute; reflexivity).
  assert (H2 : fs (busy emoji_file) !! target = Some emoji_file)
    by (vm_compute; reflexivity).
  assert (H3 : f_bytes emoji_file = f_bytes emoji_file) by reflexivity.
  assert (R1 : fix_price_function Posix (only emoji_file)
   = (Ok tt, emoji_patched (only emoji_file)))
    by (unfold emoji_patched; apply (fix_price_function_ok Posix _ emoji_file);
        vm_compute; reflexivity).
  assert (R2 : fix_price_function Posix (busy emoji_file)
   = (Ok tt, emoji_patched (busy emoji_file)))
    by (unfold emoji_patched; apply (fix_price_function_ok Posix _ emoji_file);
        vm_compute; reflexivity).
  split; [repeat split; assumption |].
  exact (same_contents_same_outcome Posix _ _ _ _ _ _ H1 H2 H3 R1 R2).
Defined.

(** C9, the statement as written fails: equal contents do not fix the
    outcome.  The same file, with plain line feeds and no match, is written
    back as it was where the line separator is LF and with every LF turned
    into CR LF where it is CR LF; and of two files with the same bytes on
    the same platform, the writable one is written back and the message
    printed, while the read-only one stops the run with [PermissionError],
    nothing written and nothing printed. *)
Lemma equal_contents_different_outcome :
  (exists st1 st2,
     fix_price_function Posix (only plain_file) = (Ok tt, st1) /\
     fix_price_function Windows (only plain_file) = (Ok tt, st2) /\
     fs st1 !! target
     = Some (File (bytes_of "log('❌ rien à corriger');" ++ [x0a]) true true) /\
     fs st2 !! target
     = Some (File (bytes_of "log('❌ rien à corriger');" ++ [x0d; x0a])
                  true true) /\
     fs st1 !! target <> fs st2 !! target /\
     stdout st1 = [message] /\ stdout st2 = [message]) /\
  (f_bytes plain_read_only_file = f_bytes plain_file /\
   exists st1 st2,
     fix_price_function Posix (only plain_file) = (Ok tt, st1) /\
     stdout st1 = [message] /\
     fix_price_function Posix (only plain_read_only_file)
     = (Raise PermissionError, st2) /\
     fs st2 = fs (only plain_read_only_file) /\
     stdout st2 = []).
Proof.
  split.
  - eexists _, _. split.
    { apply (fix_price_function_ok Posix _ plain_file); reflexivity. }
    split.
    { apply (fix_price_function_ok Windows _ plain_file); reflexivity. }
    cbn [fs stdout]. rewrite !lookup_insert_eq.
    split; [now vm_compute |]. split; [now vm_compute |].
    split; [| split; reflexivity].
    intros H. vm_compute in H. discriminate.
  - split; [reflexivity |]. eexists _, _. split.
    { apply (fix_price_function_ok Posix _ plain_file); reflexivity. }
    split; [reflexivity |]. split.
    { apply fix_price_function_failure.
      apply (failure_unwritable _ plain_read_only_file (text_of plain_text));
        reflexivity. }
    split; reflexivity.
Qed.

(** * Further properties of the script *)

(** ** The codec, the other way round *)

Lemma to_N_byte_of_N (n : N) : (n < 256)%N -> Byte.to_N (byte_of_N n) = n.
Proof.
  intros H. unfold byte_of_N. destruct (Byte.of_N n) as [b|] eqn:E.
  - now apply Byte.to_of_N.
  - apply Byte.of_N_None_iff in E. lia.
Qed.

Ltac decide_ltb :=
  repeat match goal with
  | |- context [(?a <? ?b)%N] =>
    let H := fresh in
    destruct (N.ltb_spec a b) as [H | H]; [try (exfalso; ndiv) | try (exfalso; ndiv)]
  | |- context [(?a <=? ?b)%N] =>
    let H := fresh in
    destruct (N.leb_spec a b) as [H | H]; [try (exfalso; ndiv) | try (exfalso; ndiv)]
  | |- context [(?a =? ?b)%N] =>
    let H := fresh in
    destruct (N.eqb_spec a b) as [H | H]; [try (exfalso; ndiv) | try (exfalso; ndiv)]
  end.

(** The bytes of one code point decode to that code point. *)
Lemma utf8_decode_char (c : codepoint) (bc : list byte) :
  utf8_encode_char c = Some bc ->
  forall rest, utf8_decode (bc ++ rest) = option_map (cons c) (utf8_decode rest).
Proof.
  unfold utf8_encode_char. intros H rest.
  destruct (N.ltb_spec c 0x80) as [H1 | H1].
  { inversion H; subst bc. cbn [app utf8_decode]. cbv zeta.
    rewrite to_N_byte_of_N by lia. decide_ltb. reflexivity. }
  destruct (N.ltb_spec c 0x800) as [H2 | H2].
  { inversion H; subst bc. cbn [app utf8_decode]. cbv zeta. unfold is_continuation.
    rewrite !to_N_byte_of_N by ndiv. decide_ltb. cbn [andb].
    do 2 f_equal. ndiv. }
  destruct (N.ltb_spec c 0x10000) as [H3 | H3].
  { destruct ((0xD800 <=? c) && (c <=? 0xDFFF))%N eqn:Hs; [discriminate |].
    inversion H; subst bc. cbn [app utf8_decode]. cbv zeta. unfold is_continuation.
    rewrite !to_N_byte_of_N by ndiv.
    apply andb_false_iff in Hs.
    assert (Hs' : (c < 0xD800 \/ 0xDFFF < c)%N)
      by (destruct Hs as [Hs | Hs]; [left; now apply N.leb_gt | right; now apply N.leb_gt]).
    clear Hs. decide_ltb; cbn [andb negb]; first [do 2 f_equal; ndiv | exfalso; ndiv]. }
  destruct (N.ltb_spec c 0x110000) as [H4 | H4]; [| discriminate].
  inversion H; subst bc. cbn [app utf8_decode]. cbv zeta. unfold is_continuation.
  rewrite !to_N_byte_of_N by ndiv.
  decide_ltb; cbn [andb negb]; first [do 2 f_equal; ndiv | exfalso; ndiv].
Qed.

Lemma utf8_decode_encode (t : str) :
  forall bs, utf8_encode t = Some bs -> utf8_decode bs = Some t.
Proof.
  induction t as [|c t IH]; intros bs H; cbn [utf8_encode] in H.
  - inversion H. reflexivity.
  - destruct (utf8_encode_char c) as [bc|] eqn:Ec; [| discriminate].
    destruct (utf8_encode t) as [bt|] eqn:Et; [| discriminate].
    inversion H; subst bs.
    rewrite (utf8_decode_char c bc Ec), (IH bt eq_refl). reflexivity.
Qed.

(** X10. UTF-8 decoding and encoding are inverse to each other: bytes
    decode to a text exactly when that text encodes to those bytes. *)
Theorem utf8_decode_iff_encode (bs : list byte) (t : str) :
  utf8_decode bs = Some t <-> utf8_encode t = Some bs.
Proof. split; [apply utf8_roundtrip | apply utf8_decode_encode]. Qed.

(** ** Line ends *)

Lemma universal_newlines_no_CR (s : str) :
  Forall (fun c => c <> CR) (universal_newlines s).
Proof.
  remember (length s) as n eqn:Hn. revert s Hn.
  induction n as [n IH] using lt_wf_ind. intros s Hn.
  destruct s as [|c s]; cbn [universal_newlines]; [constructor |].
  destruct (N.eqb_spec c CR) as [-> | Hc].
  - constructor; [discriminate |]. destruct s as [|d s]; [constructor |].
    destruct (d =? LF)%N; eapply IH; try reflexivity; subst n; simpl; lia.
  - constructor; [assumption |]. eapply IH; try reflexivity. subst n; simpl; lia.
Qed.

Lemma no_CR_In (s : str) : Forall (fun c => c <> CR) s <-> ~ In CR s.
Proof.
  rewrite List.Forall_forall. split.
  - intros H Hin. now apply (H CR Hin).
  - intros H c Hin ->. now apply H.
Qed.

(** What was written with the line ends of the platform reads back as it
    was, when it held no carriage return. *)
Lemma universal_translate (os : platform) (s : str) :
  Forall (fun c => c <> CR) s ->
  universal_newlines (translate_newlines os s) = s.
Proof.
  unfold translate_newlines.
  induction 1 as [|c s Hc _ IH]; cbn [flat_map]; [reflexivity |].
  match goal with
  | |- context [flat_map ?f s] => set (rest := flat_map f s) in *
  end.
  destruct (N.eqb_spec c LF) as [-> | Hl].
  - destruct os; cbn [linesep app universal_newlines].
    + change (LF =? CR)%N with false. cbn iota. now rewrite IH.
    + change (CR =? CR)%N with true. cbn iota.
      change (LF =? LF)%N with true. cbn iota. now rewrite IH.
  - cbn [app universal_newlines].
    destruct (N.eqb_spec c CR) as [-> | _]; [easy |]. now rewrite IH.
Qed.

Lemma native_roundtrip (os : platform) (t : str) :
  native_newlines os t = true ->
  translate_newlines os (universal_newlines t) = t.
Proof.
  destruct os; cbn [native_newlines]; intros H.
  - rewrite translate_newlines_posix. apply universal_newlines_id.
    apply negb_true_iff in H. intros Hin.
    assert (E : existsb (N.eqb CR) t = true)
      by (apply existsb_exists; exists CR; split; [assumption | apply N.eqb_refl]).
    congruence.
  - remember (length t) as n eqn:Hn. revert t Hn H.
    induction n as [n IH] using lt_wf_ind. intros t Hn H.
    destruct t as [|c t]; [reflexivity |].
    cbn [crlf_pairs universal_newlines] in *.
    destruct (N.eqb_spec c CR) as [-> | Hc].
    + destruct t as [|d t]; [discriminate |].
      apply andb_true_iff in H. destruct H as [Hd H].
      rewrite Hd. apply N.eqb_eq in Hd. subst d.
      unfold translate_newlines. cbn [flat_map].
      change (LF =? LF)%N with true. cbn iota. cbn [linesep app].
      do 2 f_equal. apply (IH (length t)); [subst n; simpl; lia | reflexivity | assumption].
    + destruct (N.eqb_spec c LF) as [-> | Hl]; [discriminate |].
      unfold translate_newlines. cbn [flat_map].
      destruct (N.eqb_spec c LF) as [-> | _]; [easy |]. cbn [app]. f_equal.
      apply (IH (length t)); [subst n; simpl; lia | reflexivity | assumption].
Qed.

(** What is written has the line ends of the platform. *)
Lemma translate_native (os : platform) (s : str) :
  Forall (fun c => c <> CR) s ->
  native_newlines os (translate_newlines os s) = true.
Proof.
  intros H. destruct os; cbn [native_newlines].
  - rewrite translate_newlines_posix. apply negb_true_iff.
    destruct (existsb (N.eqb CR) s) eqn:E; [| reflexivity].
    apply existsb_exists in E. destruct E as (c & Hin & E).
    apply N.eqb_eq in E. subst c. now apply no_CR_In in H.
  - unfold translate_newlines.
    induction H as [|c s Hc _ IH]; cbn [flat_map]; [reflexivity |].
    destruct (N.eqb_spec c LF) as [-> | Hl].
    + cbn [linesep app crlf_pairs].
      change (CR =? CR)%N with true. cbn iota.
      change (LF =? LF)%N with true. cbn [andb]. exact IH.
    + cbn [app crlf_pairs].
      destruct (N.eqb_spec c CR) as [-> | _]; [easy |].
      destruct (N.eqb_spec c LF) as [-> | _]; [easy | exact IH].
Qed.

Lemma translate_newlines_app (os : platform) (a b : str) :
  translate_newlines os (a ++ b) = translate_newlines os a ++ translate_newlines os b.
Proof. unfold translate_newlines. apply flat_map_app. Qed.

Lemma read_text_no_CR_out (bs : list byte) (t : str) :
  read_text bs = Some t -> Forall (fun c => c <> CR) t.
Proof.
  unfold read_text. destruct (utf8_decode bs) as [t0|]; [| discriminate].
  intros H. inversion H. apply universal_newlines_no_CR.
Qed.

Lemma fix_content_no_CR (t : str) :
  Forall (fun c => c <> CR) t -> Forall (fun c => c <> CR) (fix_content t).
Proof.
  intros H. apply sub_Forall; [| assumption].
  apply no_CR_In, new_function_plain.
Qed.

(** ** Outcomes of a run *)

(** Every run either goes through or stops on one of the failures. *)
Lemma fix_price_function_cases (os : platform) (st : state) :
  (exists f t out,
     fs st !! target = Some f /\ f_readable f = true /\ f_writable f = true /\
     read_text (f_bytes f) = Some t /\
     write_text os (fix_content t) = Some out /\
     fix_price_function os st =
     (Ok tt, State (<[target := File out true true]> (fs st))
                   (stdout st ++ [message]) (Some (fix_content t))))
  \/ (exists e c, failure st e c /\
        fix_price_function os st = (Raise e, State (fs st) (stdout st) c)).
Proof.
  assert (F : forall e c, failure st e c ->
    exists e c, failure st e c /\
      fix_price_function os st = (Raise e, State (fs st) (stdout st) c)).
  { intros e c Hf. exists e, c. split; [assumption |].
    now apply fix_price_function_failure. }
  destruct (fs st !! target) as [f|] eqn:Hf;
    [| right; eapply F; now apply failure_missing].
  destruct (f_readable f) eqn:Hr;
    [| right; eapply F; eapply failure_unreadable; eassumption].
  destruct (utf8_decode (f_bytes f)) as [t|] eqn:Hd;
    [| right; eapply F; eapply failure_undecodable; eassumption].
  assert (Ht : read_text (f_bytes f) = Some (universal_newlines t))
    by (unfold read_text; now rewrite Hd).
  destruct (f_writable f) eqn:Hw;
    [| right; eapply F; eapply failure_unwritable; eassumption].
  destruct (write_text_fix_content os _ _ Ht) as (out & Ho).
  left. exists f, (universal_newlines t), out.
  repeat split; try assumption.
  now apply (fix_price_function_ok os st f).
Qed.

(** X2. Whatever the outcome, no file other than the target is created,
    removed or changed. *)
Theorem other_files_untouched (os : platform) (st : state) (path : string) :
  path <> target ->
  fs (snd (fix_price_function os st)) !! path = fs st !! path.
Proof.
  intros Hp.
  destruct (fix_price_function_cases os st)
    as [(f & t & out & _ & _ & _ & _ & _ & ->) | (e & c & _ & ->)];
    cbn [snd fs]; [| reflexivity].
  now rewrite lookup_insert_ne.
Qed.

Lemma other_files_untouched_witness :
  "notes.txt"%string <> target /\
  fs (snd (fix_price_function Posix (busy emoji_file))) !! "notes.txt"%string
  = fs (busy emoji_file) !! "notes.txt"%string.
Proof.
  assert (H : "notes.txt"%string <> target) by discriminate.
  split; [exact H |].
  exact (other_files_untouched Posix (busy emoji_file) _ H).
Defined.

(** ** What is matched and what is not *)

Lemma fn_header_length : length fn_header = 34.
Proof. reflexivity. Qed.

Lemma matched_text_length (m : str) : matched_text m -> 38 <= length m.
Proof.
  intros [args ws body Ha _ _ _]. destruct args as [|a args]; [easy |].
  len. rewrite fn_header_length. lia.
Qed.

Lemma matched_text_brace (m : str) : matched_text m -> In (chr "}") m.
Proof.
  intros [args ws body _ _ _ _].
  apply in_or_app. right. apply in_or_app. right. right.
  apply in_or_app. right. right. apply in_or_app. right. now left.
Qed.

(** X3. Whenever the search finds the pattern, the region found is at
    least 38 characters long and has exactly this form: the header text, a
    non-empty parameter list without closing parenthesis, a closing
    parenthesis, whitespace, an opening brace, and the text up to and
    including the first closing brace after it. *)
Theorem found_region_shape (s : str) (a b : nat) :
  search pattern s = Some (a, b) ->
  a + 38 <= b <= length s /\
  matched_text (slice a b s) /\
  s = firstn a s ++ slice a b s ++ skipn b s.
Proof.
  intros H.
  destruct (sub_found pattern new_function s a b H)
    as (pre & m & post & -> & -> & -> & Hm & _ & _ & _).
  apply pattern_match_spec in Hm. destruct Hm as (m' & E & Hm).
  apply app_inv_tail in E. subst m'.
  pose proof (matched_text_length _ Hm) as Hl.
  assert (Es : slice (length pre) (length pre + length m) (pre ++ m ++ post) = m).
  { unfold slice. rewrite drop_app_length.
    replace (length pre + length m - length pre) with (length m) by lia.
    apply take_app_length. }
  rewrite Es, take_prefix, drop_prefix2.
  split; [len | split; [assumption | reflexivity]].
Qed.

Lemma found_region_shape_witness :
  search pattern (text_of emoji_text) = Some (16, 69) /\
  (16 + 38 <= 69 <= length (text_of emoji_text) /\
   matched_text (slice 16 69 (text_of emoji_text)) /\
   text_of emoji_text
   = firstn 16 (text_of emoji_text) ++ slice 16 69 (text_of emoji_text)
     ++ skipn 69 (text_of emoji_text)).
Proof.
  assert (H : search pattern (text_of emoji_text) = Some (16, 69))
    by (vm_compute; reflexivity).
  split; [exact H |].
  exact (found_region_shape _ _ _ H).
Defined.

(** X4. A function declared with an empty parameter list is not matched:
    the pattern asks for at least one character between the parentheses. *)
Theorem empty_parameter_list_not_matched (rest : str) :
  match_at pattern (fn_header ++ chr ")" :: rest) = None.
Proof.
  apply match_at_None.
  destruct (rmatch pattern (fn_header ++ chr ")" :: rest) Some) as [r|] eqn:E;
    [| reflexivity].
  exfalso. apply pattern_match_spec in E. destruct E as (m & E & Hm).
  destruct Hm as [args ws body Ha Hp _ _].
  rewrite <- app_assoc in E. apply app_inv_head in E.
  destruct args as [|x args]; [easy |].
  cbn [app] in E. inversion E; subst x. apply Hp. now left.
Qed.

Lemma skipn_In (x : codepoint) (j : nat) (s : str) : In x (skipn j s) -> In x s.
Proof.
  intros H. rewrite <- (firstn_skipn j s). apply in_or_app. now right.
Qed.

(** X5. A text without closing brace is returned as it is: no region of
    it can match, wherever the search starts. *)
Theorem no_closing_brace_unchanged (s : str) :
  ~ In (chr "}") s -> search pattern s = None /\ fix_content s = s.
Proof.
  intros H.
  assert (Hs : search pattern s = None).
  { apply search_from_None. intros j _. apply match_at_None.
    destruct (rmatch pattern (skipn j s) Some) as [r|] eqn:E; [| reflexivity].
    exfalso. apply pattern_match_spec in E. destruct E as (m & E & Hm).
    apply H, (skipn_In _ j). rewrite E. apply in_or_app. left.
    now apply matched_text_brace. }
  split; [exact Hs | now apply sub_not_found].
Qed.

Lemma no_closing_brace_unchanged_witness :
  ~ In (chr "}") (text_of unclosed_function) /\
  (search pattern (text_of unclosed_function) = None /\
   fix_content (text_of unclosed_function) = text_of unclosed_function).
Proof.
  assert (H : ~ In (chr "}") (text_of unclosed_function))
    by (apply not_In_check; vm_compute; reflexivity).
  split; [exact H |].
  exact (no_closing_brace_unchanged _ H).
Defined.

(** ** Files with the line ends of the platform *)

Lemma write_text_app (os : platform) (a b : str) (x y : list byte) :
  write_text os a = Some x -> write_text os b = Some y ->
  write_text os (a ++ b) = Some (x ++ y).
Proof.
  unfold write_text. rewrite translate_newlines_app. apply utf8_encode_app.
Qed.

Lemma write_text_app_inv (os : platform) (a b : str) (z : list byte) :
  write_text os (a ++ b) = Some z ->
  exists x y, write_text os a = Some x /\ write_text os b = Some y /\ z = x ++ y.
Proof.
  unfold write_text. rewrite translate_newlines_app. apply utf8_encode_app_inv.
Qed.

Lemma write_text_new_function (os : platform) :
  exists brepl, write_text os new_function = Some brepl.
Proof.
  apply utf8_encode_total, translate_newlines_Forall; [apply linesep_encodable |].
  eapply utf8_encode_encodable, new_function_encodes.
Qed.

(** A file with the line ends of the platform is what writing its text
    gives back. *)
Lemma native_file_text (os : platform) (bs : list byte) (t : str) :
  utf8_decode bs = Some t -> native_newlines os t = true ->
  read_text bs = Some (universal_newlines t)
  /\ write_text os (universal_newlines t) = Some bs.
Proof.
  intros Hd Hn. split.
  - unfold read_text. now rewrite Hd.
  - unfold write_text. rewrite (native_roundtrip os t Hn).
    now apply utf8_roundtrip.
Qed.

(** X7. On either platform, a file that decodes, whose line ends are all
    the platform's own and in whose text the pattern has no match is left
    byte for byte as it was, with the whole file system; the message is
    printed all the same. *)
Theorem native_file_without_match_unchanged
        (os : platform) (st : state) (f : file) (t : str) :
  fs st !! target = Some f ->
  f_readable f = true -> f_writable f = true ->
  utf8_decode (f_bytes f) = Some t ->
  native_newlines os t = true ->
  search pattern (universal_newlines t) = None ->
  fix_price_function os st =
  (Ok tt, State (fs st) (stdout st ++ [message]) (Some (universal_newlines t))).
Proof.
  intros Hf Hr Hw Hd Hn Hs.
  destruct (native_file_text os _ _ Hd Hn) as [Ht Ho].
  assert (E : fix_content (universal_newlines t) = universal_newlines t)
    by now apply sub_not_found.
  rewrite (fix_price_function_ok os st f _ (f_bytes f) Hf Hr Hw Ht).
  - rewrite E, file_eta by assumption. now rewrite insert_id.
  - now rewrite E.
Qed.

Lemma native_file_without_match_unchanged_witness :
  (fs (only windows_plain_file) !! target = Some windows_plain_file /\
   f_readable windows_plain_file = true /\ f_writable windows_plain_file = true /\
   utf8_decode (f_bytes windows_plain_file)
   = Some windows_plain_text /\
   native_newlines Windows windows_plain_text = true /\
   search pattern
     (universal_newlines windows_plain_text) = None)
  /\
  fix_price_function Windows (only windows_plain_file) =
  (Ok tt, State (fs (only windows_plain_file))
                (stdout (only windows_plain_file) ++ [message])
                (Some (universal_newlines
                         windows_plain_text))).
Proof.
  assert (H1 : fs (only windows_plain_file) !! target = Some windows_plain_file)
    by (vm_compute; reflexivity).
  assert (H2 : f_readable windows_plain_file = true) by reflexivity.
  assert (H3 : f_writable windows_plain_file = true) by reflexivity.
  assert (H4 : utf8_decode (f_bytes windows_plain_file)
               = Some windows_plain_text)
    by (vm_compute; reflexivity).
  assert (H5 : native_newlines Windows
                 windows_plain_text = true)
    by (vm_compute; reflexivity).
  assert (H6 : search pattern
                 (universal_newlines
                    windows_plain_text) = None)
    by (vm_compute; reflexivity).
  split; [repeat split; assumption |].
  exact (native_file_without_match_unchanged Windows _ _ _ H1 H2 H3 H4 H5 H6).
Defined.

(** X8. On either platform, for a file that decodes and whose line ends
    are all the platform's own, when the pattern is found: the file is the
    bytes written for the text before the match, for the match and for the
    text after it, and the run keeps the first and the last and puts
    between them the bytes written for the replacement text, that is, the
    replacement text with the line ends of the platform. *)
Theorem native_file_patched_in_place
        (os : platform) (st : state) (f : file) (t : str) (a b : nat) :
  fs st !! target = Some f ->
  f_readable f = true -> f_writable f = true ->
  utf8_decode (f_bytes f) = Some t ->
  native_newlines os t = true ->
  search pattern (universal_newlines t) = Some (a, b) ->
  exists pre m post bpre bm bpost brepl,
    universal_newlines t = pre ++ m ++ post /\
    a = length pre /\ b = length pre + length m /\ matched_text m /\
    write_text os pre = Some bpre /\ write_text os m = Some bm /\
    write_text os post = Some bpost /\
    write_text os new_function = Some brepl /\
    f_bytes f = bpre ++ bm ++ bpost /\
    fix_price_function os st =
    (Ok tt,
     State (<[target := File (bpre ++ brepl ++ bpost) true true]> (fs st))
           (stdout st ++ [message])
           (Some (pre ++ new_function ++ post))).
Proof.
  intros Hf Hr Hw Hd Hn Hs.
  destruct (native_file_text os _ _ Hd Hn) as [Ht Ho].
  destruct (sub_found pattern new_function _ a b Hs)
    as (pre & m & post & Eu & -> & -> & Hm & _ & _ & Hsub).
  apply pattern_match_spec in Hm. destruct Hm as (m' & E & Hm).
  apply app_inv_tail in E. subst m'.
  rewrite Eu in Ho, Hsub.
  destruct (write_text_app_inv _ _ _ _ Ho) as (bpre & bmp & Hpre & Hmp & Eb).
  destruct (write_text_app_inv _ _ _ _ Hmp) as (bm & bpost & Hbm & Hpost & ->).
  destruct (write_text_new_function os) as (brepl & Hrepl).
  exists pre, m, post, bpre, bm, bpost, brepl.
  repeat split; try assumption.
  rewrite (fix_price_function_ok os st f _ (bpre ++ brepl ++ bpost) Hf Hr Hw Ht).
  - unfold fix_content. rewrite Eu. now rewrite Hsub.
  - unfold fix_content. rewrite Eu, Hsub.
    apply write_text_app; [assumption |]. now apply write_text_app.
Qed.

(** ** The file a run leaves *)

(** X6. After a run that ends without error, on either platform, opening
    the target again for reading gives exactly the text the script held in
    [content]: the written file decodes, and its line ends translate back. *)
Theorem patched_file_reads_back
        (os : platform) (st : state) (f : file) (t : str) :
  fs st !! target = Some f ->
  f_readable f = true -> f_writable f = true ->
  read_text (f_bytes f) = Some t ->
  exists st',
    fix_price_function os st = (Ok tt, st') /\
    content st' = Some (fix_content t) /\
    open_read target st' = (Ok (fix_content t), st').
Proof.
  intros Hf Hr Hw Ht.
  destruct (write_text_fix_content os _ _ Ht) as (out & Ho).
  eexists. split; [apply (fix_price_function_ok os st f t out); assumption |].
  split; [reflexivity |].
  unfold open_read. cbn [fs]. rewrite lookup_insert_eq. cbn [f_readable f_bytes].
  unfold write_text in Ho. apply utf8_decode_encode in Ho.
  unfold read_text. rewrite Ho. cbn [option_map].
  rewrite universal_translate; [reflexivity |].
  apply fix_content_no_CR. eapply read_text_no_CR_out, Ht.
Qed.

(** X9. After a run that ends without error the target file holds only
    the line ends of the platform, whatever line ends it had before. *)
Theorem written_file_has_native_newlines
        (os : platform) (st : state) (f : file) (t : str) :
  fs st !! target = Some f ->
  f_readable f = true -> f_writable f = true ->
  read_text (f_bytes f) = Some t ->
  exists out w,
    fix_price_function os st =
    (Ok tt, State (<[target := File out true true]> (fs st))
                  (stdout st ++ [message]) (Some (fix_content t))) /\
    utf8_decode out = Some w /\
    native_newlines os w = true.
Proof.
  intros Hf Hr Hw Ht.
  destruct (write_text_fix_content os _ _ Ht) as (out & Ho).
  exists out, (translate_newlines os (fix_content t)).
  split; [apply (fix_price_function_ok os st f t out); assumption |].
  split; [now apply utf8_decode_encode |].
  apply translate_native, fix_content_no_CR. eapply read_text_no_CR_out, Ht.
Qed.

(** ** Running the script a second time *)

Lemma search_from_unfold (r : regex) (pos : nat) (s : str) :
  search_from r pos s =
  match match_at r s with
  | Some n => Some (pos, pos + n)
  | None => match s with
            | [] => None
            | _ :: s' => search_from r (S pos) s'
            end
  end.
Proof. destruct s; reflexivity. Qed.

Lemma search_from_intro (r : regex) (m rest : str) :
  rmatch r (m ++ rest) Some = Some rest ->
  forall pre pos,
    (forall j, j < length pre ->
               match_at r (skipn j (pre ++ m ++ rest)) = None) ->
    search_from r pos (pre ++ m ++ rest)
    = Some (pos + length pre, pos + length pre + length m).
Proof.
  intros Hm. induction pre as [|c pre IH]; intros pos Hj.
  - cbn [app length]. rewrite search_from_unfold, (match_at_rmatch r _ _ Hm).
    f_equal. f_equal; lia.
  - rewrite search_from_unfold.
    pose proof (Hj 0 ltac:(cbn; lia)) as H0.
    change (skipn 0 ((c :: pre) ++ m ++ rest)) with ((c :: pre) ++ m ++ rest) in H0.
    rewrite H0. cbn [app]. rewrite IH.
    + f_equal. f_equal; len.
    + intros j Hlt. apply (Hj (S j)). cbn. lia.
Qed.

(** The head of a matched text: the letter [a] of [async]. *)
Lemma matched_text_head (m r : str) :
  matched_text m ->
  exists T, m ++ r = chr "a" :: T.
Proof. intros [args ws body _ _ _ _]. eexists. reflexivity. Qed.

Lemma matched_text_parts (m r : str) :
  matched_text m ->
  exists a w y,
    m ++ r = fn_header ++ a ++ chr ")" :: w ++ chr "{" :: y /\
    a <> [] /\ ~ In (chr ")") a /\
    Forall (fun c => is_whitespace c = true) w /\ In (chr "}") y.
Proof.
  intros [args ws body Ha Hp Hw Hb]. exists args, ws, (body ++ chr "}" :: r).
  split; [now norm_app |]. repeat split; try assumption.
  apply in_or_app. right. now left.
Qed.

Lemma parts_matched_text (a w y : str) :
  a <> [] -> ~ In (chr ")") a ->
  Forall (fun c => is_whitespace c = true) w -> In (chr "}") y ->
  exists m r, fn_header ++ a ++ chr ")" :: w ++ chr "{" :: y = m ++ r
              /\ matched_text m.
Proof.
  intros Ha Hp Hw Hy.
  destruct (first_occurrence _ _ Hy) as (b & r & -> & Hb).
  exists (fn_header ++ a ++ chr ")" :: w ++ chr "{" :: b ++ [chr "}"]), r.
  split; [now norm_app | now constructor].
Qed.

(** After the parenthesis: a prefix put before a matched text reaches an
    opening brace through whitespace or not, whichever matched text
    follows. *)
Lemma transfer_ws (m1 r1 m2 r2 : str) :
  matched_text m1 -> matched_text m2 ->
  forall p w y,
    p ++ m1 ++ r1 = w ++ chr "{" :: y ->
    Forall (fun c => is_whitespace c = true) w ->
    exists w' y',
      p ++ m2 ++ r2 = w' ++ chr "{" :: y' /\
      Forall (fun c => is_whitespace c = true) w' /\ In (chr "}") y'.
Proof.
  intros H1 H2.
  destruct (matched_text_head m1 r1 H1) as (T1 & E1).
  induction p as [|x p IH]; intros w y E Hw; cbn [app] in E.
  - exfalso. rewrite E1 in E. destruct w as [|c w]; cbn [app] in E.
    + inversion E.
    + inversion E; subst c. inversion Hw; subst. discriminate.
  - destruct w as [|c w]; cbn [app] in E.
    + inversion E; subst x y. exists [], (p ++ m2 ++ r2).
      split; [reflexivity | split; [constructor |]].
      apply in_or_app. right. apply in_or_app. left.
      now apply matched_text_brace.
    + inversion E; subst c. inversion Hw; subst.
      destruct (IH w y) as (w' & y' & E' & Hw' & Hy'); try assumption.
      exists (x :: w'), y'. cbn [app]. rewrite E'.
      split; [reflexivity | split; [now constructor | assumption]].
Qed.

(** After the header: the same for the parameter list. *)
Lemma transfer_args (m1 r1 m2 r2 : str) :
  matched_text m1 -> matched_text m2 ->
  forall p a y w z,
    p ++ m1 ++ r1 = a ++ chr ")" :: y ->
    ~ In (chr ")") a ->
    y = w ++ chr "{" :: z ->
    Forall (fun c => is_whitespace c = true) w ->
    exists a' w' z',
      p ++ m2 ++ r2 = a' ++ chr ")" :: w' ++ chr "{" :: z' /\
      ~ In (chr ")") a' /\
      Forall (fun c => is_whitespace c = true) w' /\ In (chr "}") z' /\
      (a <> [] -> a' <> []).
Proof.
  intros H1 H2.
  destruct (matched_text_parts m2 r2 H2) as (a2 & w2 & y2 & E2 & Ha2 & Hp2 & Hw2 & Hy2).
  assert (Hh : ~ In (chr ")") fn_header)
    by (apply not_In_check; vm_compute; reflexivity).
  induction p as [|x p IH]; intros a y w z E Hp Ey Hw; cbn [app] in *.
  - exists (fn_header ++ a2), w2, y2. rewrite E2.
    split; [now norm_app |]. split; [| split; [assumption | split; [assumption |]]].
    + intros Hin. apply in_app_or in Hin. tauto.
    + intros _ Hn. apply app_eq_nil in Hn. destruct Hn as [Hn _].
      vm_compute in Hn. discriminate.
  - destruct a as [|c a]; cbn [app] in E.
    + inversion E as [[Ex Ey']]. subst x.
      destruct (transfer_ws m1 r1 m2 r2 H1 H2 p w z) as (w' & z' & E' & Hw' & Hz');
        [congruence | assumption |].
      exists [], w', z'. cbn [app]. rewrite E'.
      split; [reflexivity |]. split; [easy |]. split; [assumption |].
      split; [assumption | easy].
    + inversion E as [[Ex E']]. subst c.
      destruct (IH a y w z) as (a' & w' & z' & E'' & Hp' & Hw' & Hz' & _);
        try assumption.
      { intros Hin. apply Hp. now right. }
      exists (x :: a'), w', z'. cbn [app]. rewrite E''.
      split; [reflexivity |]. split; [| split; [assumption | split; [assumption | easy]]].
      intros [Hx | Hin]; [| now apply Hp'].
      apply Hp. left. exact Hx.
Qed.


(** No end of the header text is also a beginning of it. *)
Lemma fn_header_no_border (p l X Y : str) :
  fn_header = p ++ l -> p <> [] -> l <> [] ->
  fn_header ++ X = l ++ Y -> False.
Proof.
  intros E Hp Hl E2.
  assert (Hlen : length p + length l = 34)
    by (rewrite <- length_app, <- E; reflexivity).
  assert (S1 : skipn (length p) fn_header = l)
    by (rewrite E; apply drop_app_length).
  assert (S2 : firstn (length l) (fn_header ++ X) = l)
    by (rewrite E2; apply take_app_length).
  rewrite take_app_le in S2 by (rewrite fn_header_length; lia).
  assert (Hk : 0 < length p < 34).
  { destruct p; [easy |]. destruct l; [easy |]. cbn [length] in *. lia. }
  replace (length l) with (34 - length p) in S2 by lia.
  rewrite <- S1 in S2. clear - S2 Hk.
  remember (length p) as k eqn:Ek. clear Ek.
  do 34 (destruct k as [|k]; [try lia; vm_compute in S2; discriminate |]).
  lia.
Qed.

(** A position in front of a matched text matches or not, whichever
    matched text follows: what is matched from there on ends inside the
    prefix or runs into the matched text, which always supplies the
    parenthesis, the brace and the closing brace still wanted. *)
Lemma transfer_match (m1 r1 m2 r2 p : str) :
  matched_text m1 -> matched_text m2 -> p <> [] ->
  rmatch pattern (p ++ m1 ++ r1) Some <> None ->
  rmatch pattern (p ++ m2 ++ r2) Some <> None.
Proof.
  intros H1 H2 Hp Hm.
  destruct (rmatch pattern (p ++ m1 ++ r1) Some) as [r|] eqn:E; [| easy]. clear Hm.
  apply pattern_match_spec in E. destruct E as (M & E & HM).
  destruct (matched_text_parts M r HM) as (a & w & y & EM & Ha & Hpa & Hw & Hy).
  rewrite EM in E. clear EM HM M r.
  assert (G : forall l, p = fn_header ++ l ->
                        a ++ chr ")" :: w ++ chr "{" :: y = l ++ m1 ++ r1 ->
                        rmatch pattern (p ++ m2 ++ r2) Some <> None).
  { intros l -> El.
    destruct (transfer_args m1 r1 m2 r2 H1 H2 l a (w ++ chr "{" :: y) w y)
      as (a' & w' & z' & E' & Hp' & Hw' & Hz' & Hne); auto.
    destruct (parts_matched_text a' w' z') as (M' & r' & EM' & HM'); auto.
    rewrite <- app_assoc, E', EM'.
    rewrite (pattern_matches_text _ _ HM'). discriminate. }
  apply app_eq_app in E. destruct E as (l & [[E1 E2] | [E1 E2]]).
  - now apply (G l).
  - destruct l as [|c l].
    + rewrite app_nil_r in E1. cbn [app] in E2.
      apply (G []); [now rewrite app_nil_r | now rewrite E2].
    + exfalso.
      destruct (matched_text_parts m1 r1 H1) as (a1 & w1 & y1 & Em1 & _).
      rewrite Em1 in E2.
      eapply (fn_header_no_border p (c :: l)); eauto.
Qed.

(** X11. Running the substitution a second time on a patched text finds
    its match at the place of the first one, as the first 85 characters of
    the text just inserted, and replaces them by the whole replacement
    text: after two runs the text holds the replacement text followed by a
    second copy of all but its first 85 characters. *)
Theorem second_run_repeats_tail (s : str) (a b : nat) :
  search pattern s = Some (a, b) ->
  fix_content s = firstn a s ++ new_function ++ skipn b s /\
  search pattern (fix_content s) = Some (a, a + 85) /\
  fix_content (fix_content s)
  = firstn a s ++ new_function ++ skipn 85 new_function ++ skipn b s.
Proof.
  intros Hs.
  destruct (sub_found pattern new_function s a b Hs)
    as (pre & m & post & -> & -> & -> & Hm & _ & Hleft & Hsub).
  apply pattern_match_spec in Hm. destruct Hm as (m' & E & Hm).
  apply app_inv_tail in E. subst m'.
  rewrite take_prefix, drop_prefix2.
  destruct new_function_head as (nt & En & Hnt & Hnh).
  set (nh := fn_header ++ text_of "marketId" ++ chr ")" :: text_of " " ++ chr "{" ::
             text_of "
    const cacheKey = `price_${marketId" ++ [chr "}"]) in *.
  assert (Lnh : length nh = 85) by reflexivity.
  assert (Ent : skipn 85 new_function = nt)
    by (rewrite En, <- Lnh; apply drop_app_length).
  assert (Hfix : fix_content (pre ++ m ++ post) = pre ++ nh ++ nt ++ post)
    by (unfold fix_content; rewrite Hsub, En; now rewrite <- app_assoc).
  assert (Hs2 : search pattern (pre ++ nh ++ nt ++ post)
                = Some (length pre, length pre + 85)).
  { unfold search.
    rewrite (search_from_intro pattern nh (nt ++ post)
               (pattern_matches_text _ _ Hnh) pre 0).
    - now rewrite Lnh.
    - intros j Hj.
      destruct (match_at pattern (skipn j (pre ++ nh ++ nt ++ post))) eqn:Ej;
        [| reflexivity].
      exfalso.
      assert (Ep : pre = firstn j pre ++ skipn j pre)
        by (symmetry; apply firstn_skipn).
      assert (Hp : skipn j pre <> []).
      { intros Hn. apply (f_equal (@length codepoint)) in Hn.
        rewrite length_drop in Hn. cbn in Hn. lia. }
      assert (D : forall x, skipn j (pre ++ x) = skipn j pre ++ x).
      { intros x. rewrite drop_app_le by lia. reflexivity. }
      rewrite D in Ej.
      pose proof (Hleft j Hj) as Hn. rewrite D in Hn.
      apply match_at_None in Hn.
      apply (transfer_match nh (nt ++ post) m post (skipn j pre) Hnh Hm Hp);
        [| exact Hn].
      intros Hnone. apply match_at_None in Hnone. congruence. }
  split; [now rewrite Hfix, En, <- app_assoc |].
  rewrite Hfix. split; [exact Hs2 |].
  unfold fix_content, re.sub. rewrite Hs2.
  rewrite take_prefix.
  replace (length pre + 85) with (length pre + length nh) by lia.
  rewrite drop_prefix2, Ent. reflexivity.
Qed.

Lemma second_run_repeats_tail_witness :
  search pattern (text_of emoji_text) = Some (16, 69) /\
  (fix_content (text_of emoji_text)
   = firstn 16 (text_of emoji_text) ++ new_function
     ++ skipn 69 (text_of emoji_text) /\
   search pattern (fix_content (text_of emoji_text)) = Some (16, 16 + 85) /\
   fix_content (fix_content (text_of emoji_text))
   = firstn 16 (text_of emoji_text) ++ new_function ++ skipn 85 new_function
     ++ skipn 69 (text_of emoji_text)).
Proof.
  assert (H : search pattern (text_of emoji_text) = Some (16, 69))
    by (vm_compute; reflexivity).
  split; [exact H |].
  exact (second_run_repeats_tail _ _ _ H).
Defined.

Lemma native_file_patched_in_place_witness :
  (fs (only windows_file) !! target = Some windows_file /\
   f_readable windows_file = true /\ f_writable windows_file = true /\
   utf8_decode (f_bytes windows_file) = Some windows_text /\
   native_newlines Windows windows_text = true /\
   search pattern (universal_newlines windows_text) = Some (16, 69))
  /\
  exists pre m post bpre bm bpost brepl,
    universal_newlines windows_text = pre ++ m ++ post /\
    16 = length pre /\ 69 = length pre + length m /\ matched_text m /\
    write_text Windows pre = Some bpre /\ write_text Windows m = Some bm /\
    write_text Windows post = Some bpost /\
    write_text Windows new_function = Some brepl /\
    f_bytes windows_file = bpre ++ bm ++ bpost /\
    fix_price_function Windows (only windows_file) =
    (Ok tt,
     State (<[target := File (bpre ++ brepl ++ bpost) true true]>
              (fs (only windows_file)))
           (stdout (only windows_file) ++ [message])
           (Some (pre ++ new_function ++ post))).
Proof.
  assert (H1 : fs (only windows_file) !! target = Some windows_file)
    by (vm_compute; reflexivity).
  assert (H2 : f_readable windows_file = true) by reflexivity.
  assert (H3 : f_writable windows_file = true) by reflexivity.
  assert (H4 : utf8_decode (f_bytes windows_file) = Some windows_text)
    by (vm_compute; reflexivity).
  assert (H5 : native_newlines Windows windows_text = true)
    by (vm_compute; reflexivity).
  assert (H6 : search pattern (universal_newlines windows_text) = Some (16, 69))
    by (vm_compute; reflexivity).
  split; [repeat split; assumption |].
  exact (native_file_patched_in_place Windows _ _ _ _ _ H1 H2 H3 H4 H5 H6).
Defined.

Lemma patched_file_reads_back_witness :
  (fs (only windows_file) !! target = Some windows_file /\
   f_readable windows_file = true /\ f_writable windows_file = true /\
   read_text (f_bytes windows_file) = Some (text_of emoji_text))
  /\
  exists st',
    fix_price_function Windows (only windows_file) = (Ok tt, st') /\
    content st' = Some (fix_content (text_of emoji_text)) /\
    open_read target st' = (Ok (fix_content (text_of emoji_text)), st').
Proof.
  assert (H1 : fs (only windows_file) !! target = Some windows_file)
    by (vm_compute; reflexivity).
  assert (H2 : f_readable windows_file = true) by reflexivity.
  assert (H3 : f_writable windows_file = true) by reflexivity.
  assert (H4 : read_text (f_bytes windows_file) = Some (text_of emoji_text))
    by (vm_compute; reflexivity).
  split; [repeat split; assumption |].
  exact (patched_file_reads_back Windows _ _ _ H1 H2 H3 H4).
Defined.

Lemma written_file_has_native_newlines_witness :
  (fs (only crlf_file) !! target = Some crlf_file /\
   f_readable crlf_file = true /\ f_writable crlf_file = true /\
   read_text (f_bytes crlf_file)
   = Some (text_of "// bot" ++ [LF] ++ text_of flat_function ++ [LF]))
  /\
  exists out w,
    fix_price_function Posix (only crlf_file) =
    (Ok tt, State (<[target := File out true true]> (fs (only crlf_file)))
                  (stdout (only crlf_file) ++ [message])
                  (Some (fix_content
                           (text_of "// bot" ++ [LF] ++ text_of flat_function
                            ++ [LF])))) /\
    utf8_decode out = Some w /\
    native_newlines Posix w = true.
Proof.
  assert (H1 : fs (only crlf_file) !! target = Some crlf_file)
    by (vm_compute; reflexivity).
  assert (H2 : f_readable crlf_file = true) by reflexivity.
  assert (H3 : f_writable crlf_file = true) by reflexivity.
  assert (H4 : read_text (f_bytes crlf_file)
               = Some (text_of "// bot" ++ [LF] ++ text_of flat_function ++ [LF]))
    by (vm_compute; reflexivity).
  split; [repeat split; assumption |].
  exact (written_file_has_native_newlines Posix _ _ _ H1 H2 H3 H4).
Defined.

(** X12. Once a run has ended without error, a second run on what it
    left ends without error too: it reads back the text of the first run,
    substitutes in it again, and prints the message a second time. *)
Theorem second_run_succeeds (os : platform) (st st' : state) :
  fix_price_function os st = (Ok tt, st') ->
  exists c st'',
    content st' = Some c /\
    fix_price_function os st' = (Ok tt, st'') /\
    content st'' = Some (fix_content c) /\
    stdout st'' = stdout st ++ [message; message].
Proof.
  intros H.
  destruct (fix_price_function_Ok_inv _ _ _ H)
    as (f & t & out & Hf & Hr & Hw & Ht & Ho & ->).
  assert (Hback : read_text out = Some (fix_content t)).
  { unfold write_text in Ho. apply utf8_decode_encode in Ho.
    unfold read_text. rewrite Ho. cbn [option_map]. f_equal.
    apply universal_translate, fix_content_no_CR.
    eapply read_text_no_CR_out, Ht. }
  destruct (write_text_fix_content os _ _ Hback) as (out2 & Ho2).
  exists (fix_content t). eexists. split; [reflexivity |]. split.
  - apply (fix_price_function_ok os _ (File out true true) (fix_content t) out2);
      try reflexivity; try assumption.
    cbn [fs]. apply lookup_insert_eq.
  - cbn [content stdout]. split; [reflexivity |]. now rewrite <- app_assoc.
Qed.

Lemma second_run_succeeds_witness :
  fix_price_function Posix (only emoji_file)
  = (Ok tt, emoji_patched (only emoji_file))
  /\
  exists c st'',
    content (emoji_patched (only emoji_file)) = Some c /\
    fix_price_function Posix (emoji_patched (only emoji_file)) = (Ok tt, st'') /\
    content st'' = Some (fix_content c) /\
    stdout st'' = stdout (only emoji_file) ++ [message; message].
Proof.
  assert (H : fix_price_function Posix (only emoji_file)
              = (Ok tt, emoji_patched (only emoji_file)))
    by (unfold emoji_patched; apply (fix_price_function_ok Posix _ emoji_file);
        vm_compute; reflexivity).
  split; [exact H |].
  exact (second_run_succeeds Posix _ _ H).
Defined.
